(** * Warehouse Management System: category index, product lists and stock
    analysis of [main.c], embedded in Rocq.

    The C program keeps a binary search tree of categories ([CategoryNode])
    whose nodes each own a singly linked list of products ([Product]).  The
    embedding follows the C text function by function:

    - a [Product *] pointing into a linked list is the list that starts at
      that node ([[]] is [NULL], [tl] is [->next]); the [next] field is
      therefore not a record field;
    - a [char[50]] holding a NUL-terminated name is a [string]; [strcpy] is
      the identity on such names and [strcmp] is the sign of the byte-wise
      lexicographic comparison;
    - [int] is [Z] with the two's complement wrap-around of a 32-bit word
      written out at every addition and subtraction;
    - [void] functions that assign through pointers and call [printf] return
      the updated structure together with the lines they print. *)

From Stdlib Require Import ZArith String Ascii Bool Lia QArith List.
From Stdlib Require Import Sorting.Sorted Permutation.
From Equations Require Import Equations.
Import ListNotations.

#[local] Close Scope Q_scope.
#[local] Open Scope string_scope.
#[local] Open Scope list_scope.
#[local] Open Scope Z_scope.

(* ===================================================================== *)
(** ** Machine integers *)
(* ===================================================================== *)

Module CInt.

Definition min_int : Z := - 2147483648.
Definition max_int : Z := 2147483647.
Definition modulus : Z := 4294967296.

Definition in_range (z : Z) : Prop := min_int <= z <= max_int.

(** Two's complement reduction of a mathematical integer to an [int]. *)
Definition wrap (z : Z) : Z := (z - min_int) mod modulus + min_int.

Definition add (a b : Z) : Z := wrap (a + b).
Definition sub (a b : Z) : Z := wrap (a - b).

End CInt.

(* ===================================================================== *)
(** ** Strings *)
(* ===================================================================== *)

(** [strcmp]: negative, zero or positive as the first name is below, equal
    to or above the second in byte-wise (unsigned char) lexicographic order.
    Only the sign is specified by the C library; the model returns -1, 0, 1. *)
Definition strcmp (s1 s2 : string) : Z :=
  match String.compare s1 s2 with
  | Lt => -1
  | Eq => 0
  | Gt => 1
  end.

(** [strcpy] into a 50-byte field: the identity on names of at most 49
    bytes, which is all that [fgets (buf, 50, stdin)] can produce. *)
Definition strcpy (src : string) : string := src.

(* ===================================================================== *)
(** ** Floating point average *)
(* ===================================================================== *)

(** The value of [(double)totalQuantity / count].  Both operands are 32-bit
    integers, so the correctly rounded binary64 quotient and the exact
    quotient stand in the same order relation to every [int]: the exact
    rational is kept.  A zero divisor gives the IEEE 754 special values. *)
Inductive double : Type :=
| DNaN
| DPosInf
| DNegInf
| DFin (q : Q).

Definition double_of_int (z : Z) : double := DFin (inject_Z z).

Definition double_div (a : Z) (n : Z) : double :=
  if n =? 0 then
    if a =? 0 then DNaN else if 0 <? a then DPosInf else DNegInf
  else DFin (Qdiv (inject_Z a) (inject_Z n)).

(** [x < y] on doubles; every comparison with a NaN is false. *)
Definition double_lt (x y : double) : bool :=
  match x, y with
  | DFin a, DFin b => match Qcompare a b with Lt => true | _ => false end
  | DNegInf, DFin _ | DNegInf, DPosInf | DFin _, DPosInf => true
  | _, _ => false
  end.

(* ===================================================================== *)
(** ** Data model *)
(* ===================================================================== *)

Record Product : Type := mkProduct {
  productId : Z;
  name : string;
  quantity : Z;
  category : string
}.

(** A [Product *]: the list starting at the node pointed to. *)
Definition ProductPtr : Type := list Product.

Inductive CategoryNode : Type :=
| Null
| Node (left : CategoryNode) (cat : string) (productsHead : ProductPtr)
       (right : CategoryNode).

Record AnalysisResult : Type := mkAnalysisResult {
  lowStockProducts : list Product;
  highStockProducts : list Product;
  maxStockProduct : ProductPtr;
  minStockProduct : ProductPtr;
  totalQuantity : Z;
  averageQuantity : double
}.

(** What the program writes to standard output, one constructor per
    [printf] call of the modelled functions, with the values formatted. *)
Inductive Line : Type :=
| LnUpdated (newQuantity : Z)
| LnDecreased (decreaseQuantity newQuantity : Z)
| LnNotEnough (decreaseQuantity currentStock : Z)
| LnCategory (c : string)
| LnProduct (id : Z) (nm : string) (qty : Z)
| LnReportHeader
| LnReportRow (id : Z) (nm : string) (qty : Z) (c : string).

(* ===================================================================== *)
(** ** Category tree *)
(* ===================================================================== *)

Fixpoint insertCategory (node : CategoryNode) (category : string)
  : CategoryNode :=
  match node with
  | Null => Node Null (strcpy category) [] Null
  | Node l c ps r =>
      if strcmp category c <? 0 then Node (insertCategory l category) c ps r
      else if strcmp category c >? 0
           then Node l c ps (insertCategory r category)
           else node
  end.

(** The [while (temp->left != NULL) temp = temp->left;] walk of
    [deleteCategory], returning [temp->category]; called on a non-null
    subtree only. *)
Fixpoint leftmost_category (temp : CategoryNode) (dflt : string) : string :=
  match temp with
  | Null => dflt
  | Node l c _ _ =>
      match l with
      | Null => c
      | Node _ _ _ _ => leftmost_category l dflt
      end
  end.

Fixpoint deleteCategory (node : CategoryNode) (category : string)
  : CategoryNode :=
  match node with
  | Null => Null
  | Node l c ps r =>
      if strcmp category c <? 0 then Node (deleteCategory l category) c ps r
      else if strcmp category c >? 0
           then Node l c ps (deleteCategory r category)
           else
             match l, r with
             | Null, _ => r
             | _, Null => l
             | _, _ =>
                 let temp_category := leftmost_category r c in
                 (* strcpy (node->category, temp->category): the name only;
                    node->productsHead is left as it was *)
                 Node l (strcpy temp_category) ps
                      (deleteCategory r temp_category)
             end
  end.

Fixpoint findCategory (node : CategoryNode) (category : string)
  : CategoryNode :=
  match node with
  | Null => Null
  | Node l c ps r =>
      if strcmp category c =? 0 then node
      else if strcmp category c <? 0 then findCategory l category
           else findCategory r category
  end.

(* ===================================================================== *)
(** ** Product lists *)
(* ===================================================================== *)

Definition insertProduct (head : ProductPtr) (productId : Z) (name : string)
  (quantity : Z) : ProductPtr :=
  {| productId := productId;
     name := strcpy name;
     quantity := quantity;
     category := strcpy name |} :: head.

Fixpoint findProduct (head : ProductPtr) (id : Z) : ProductPtr :=
  match head with
  | [] => []
  | p :: next => if productId p =? id then head else findProduct next id
  end.

Definition set_quantity (p : Product) (q : Z) : Product :=
  {| productId := productId p; name := name p; quantity := q;
     category := category p |}.

(** [product->quantity = q] where [product] points into the list [head]:
    the nodes before [product] and after it are untouched. *)
Definition store_quantity (head product : ProductPtr) (q : Z) : ProductPtr :=
  match product with
  | [] => head
  | p :: next =>
      firstn (length head - length product) head ++ set_quantity p q :: next
  end.

Fixpoint updateProduct (node : CategoryNode) (id : Z) (newQuantity : Z)
  : CategoryNode * list Line :=
  match node with
  | Null => (Null, [])
  | Node l c ps r =>
      let '(l', out_l) := updateProduct l id newQuantity in
      match findProduct ps id with
      | [] =>
          let '(r', out_r) := updateProduct r id newQuantity in
          (Node l' c ps r', out_l ++ out_r)
      | product =>
          (Node l' c (store_quantity ps product newQuantity) r,
           out_l ++ [LnUpdated newQuantity])
      end
  end.

Fixpoint deleteProduct (node : CategoryNode) (id : Z) (decreaseQuantity : Z)
  : CategoryNode * list Line :=
  match node with
  | Null => (Null, [])
  | Node l c ps r =>
      let '(l', out_l) := deleteProduct l id decreaseQuantity in
      match findProduct ps id with
      | [] =>
          let '(r', out_r) := deleteProduct r id decreaseQuantity in
          (Node l' c ps r', out_l ++ out_r)
      | (p :: _) as product =>
          if quantity p >=? decreaseQuantity then
            let q := CInt.sub (quantity p) decreaseQuantity in
            (Node l' c (store_quantity ps product q) r,
             out_l ++ [LnDecreased decreaseQuantity q])
          else
            (Node l' c ps r,
             out_l ++ [LnNotEnough decreaseQuantity (quantity p)])
      end
  end.

(** Menu choice 3 assigns the new list head through the pointer returned by
    [findCategory]: the node reached by that search gets the new head. *)
Fixpoint assign_productsHead (node : CategoryNode) (category : string)
  (head : ProductPtr) : CategoryNode :=
  match node with
  | Null => Null
  | Node l c ps r =>
      if strcmp category c =? 0 then Node l c head r
      else if strcmp category c <? 0
           then Node (assign_productsHead l category head) c ps r
           else Node l c ps (assign_productsHead r category head)
  end.

(** Menu choice 3, "Add Product to a Category": nothing is inserted when
    the category is not in the tree. *)
Definition menu_add_product (root : CategoryNode) (category : string)
  (productId : Z) (productName : string) (quantity : Z) : CategoryNode :=
  match findCategory root category with
  | Null => root
  | Node _ _ ps _ =>
      assign_productsHead root category
        (insertProduct ps productId productName quantity)
  end.

(* ===================================================================== *)
(** ** Display and report *)
(* ===================================================================== *)

Definition displayProducts (head : ProductPtr) : list Line :=
  map (fun p => LnProduct (productId p) (name p) (quantity p)) head.

Fixpoint displayCategories (node : CategoryNode) : list Line :=
  match node with
  | Null => []
  | Node l c ps r =>
      displayCategories l ++ LnCategory c :: displayProducts ps
        ++ displayCategories r
  end.

(** The category names of a display, in the order they are printed. *)
Definition category_lines (out : list Line) : list string :=
  flat_map (fun ln => match ln with LnCategory c => [c] | _ => [] end) out.

Definition inorder (node : CategoryNode) : list string :=
  category_lines (displayCategories node).

(** The inner [for] loop of [printProductsReport].  [current] and [index]
    are local pointer variables; the exchange through [temp] swaps those
    two variables and writes to no list node.  The result is the value of
    [current] when [index] reaches [NULL]; [None] stands for reading
    [current->productId] through a null [current]. *)
Equations? sort_inner (current index : ProductPtr) : option ProductPtr
  by wf (List.length current + List.length index)%nat lt :=
  sort_inner current [] := Some current;
  sort_inner [] (_ :: _) := None;
  sort_inner (c :: cnext) (i :: inext) with productId c >? productId i => {
    | true := sort_inner (i :: inext) cnext;
    | false := sort_inner (c :: cnext) inext }.
Proof. all: simpl; lia. Qed.

(** Termination measure of the outer loop: the inner loop never moves
    [current] to a node before the one it started from. *)
Lemma sort_inner_length (current index res : ProductPtr) (bound : nat) :
  (List.length current <= bound)%nat ->
  (S (List.length index) <= bound)%nat ->
  sort_inner current index = Some res ->
  (List.length res <= bound)%nat.
Proof.
  funelim (sort_inner current index); intros Hc Hi Hres.
  - injection Hres as <-. exact Hc.
  - discriminate.
  - eapply H; [ | | exact Hres]; simpl in *; lia.
  - eapply H; [ | | exact Hres]; simpl in *; lia.
Qed.

Definition inspect {A : Type} (a : A) : {b : A | a = b} :=
  exist _ a eq_refl.

(** The outer [for] loop: [current = current->next] is taken from whatever
    node the inner loop left [current] on. *)
Equations? sort_outer (current : ProductPtr) : option unit
  by wf (List.length current) lt :=
  sort_outer [] := Some tt;
  sort_outer (c :: cnext) with inspect (sort_inner (c :: cnext) cnext) => {
    | exist _ None _ := None;
    | exist _ (Some []) _ := None;
    | exist _ (Some (_ :: cnext')) e := sort_outer cnext' }.
Proof.
  apply sort_inner_length with (bound := S (List.length cnext)) in e;
    simpl in *; lia.
Qed.

(** [printProductsReport]: the "sorting" loops run first, then the list is
    printed from [head], which no statement of the function has changed. *)
Definition printProductsReport (head : ProductPtr) : option (list Line) :=
  match sort_outer head with
  | None => None
  | Some _ =>
      Some (LnReportHeader ::
            map (fun p => LnReportRow (productId p) (name p) (quantity p)
                                      (category p)) head)
  end.

(* ===================================================================== *)
(** ** Stock analysis *)
(* ===================================================================== *)

(** First [while] loop of [analyzeProducts]. *)
Fixpoint analyze_first_pass (current : ProductPtr) (count totalQuantity : Z)
  (maxStockProduct minStockProduct : ProductPtr)
  : Z * Z * ProductPtr * ProductPtr :=
  match current with
  | [] => (count, totalQuantity, maxStockProduct, minStockProduct)
  | p :: next =>
      let totalQuantity := CInt.add totalQuantity (quantity p) in
      let count := CInt.add count 1 in
      let maxStockProduct :=
        match maxStockProduct with
        | [] => current
        | m :: _ => if quantity p >? quantity m then current
                    else maxStockProduct
        end in
      let minStockProduct :=
        match minStockProduct with
        | [] => current
        | m :: _ => if quantity p <? quantity m then current
                    else minStockProduct
        end in
      analyze_first_pass next count totalQuantity
        maxStockProduct minStockProduct
  end.

(** Second [while] loop: each qualifying product is copied into a fresh
    node that becomes the new head of its result list. *)
Fixpoint analyze_second_pass (current : ProductPtr) (averageQuantity : double)
  (lowStockProducts highStockProducts : list Product)
  : list Product * list Product :=
  match current with
  | [] => (lowStockProducts, highStockProducts)
  | p :: next =>
      if double_lt (double_of_int (quantity p)) averageQuantity then
        analyze_second_pass next averageQuantity
          (p :: lowStockProducts) highStockProducts
      else if double_lt averageQuantity (double_of_int (quantity p)) then
        analyze_second_pass next averageQuantity
          lowStockProducts (p :: highStockProducts)
      else
        analyze_second_pass next averageQuantity
          lowStockProducts highStockProducts
  end.

Definition analyzeProducts (head : ProductPtr) : AnalysisResult :=
  let '(count, totalQuantity, maxStockProduct, minStockProduct) :=
    analyze_first_pass head 0 0 [] [] in
  let averageQuantity := double_div totalQuantity count in
  let '(lowStockProducts, highStockProducts) :=
    analyze_second_pass head averageQuantity [] [] in
  {| lowStockProducts := lowStockProducts;
     highStockProducts := highStockProducts;
     maxStockProduct := maxStockProduct;
     minStockProduct := minStockProduct;
     totalQuantity := totalQuantity;
     averageQuantity := averageQuantity |}.

(* ===================================================================== *)
(** ** Specification vocabulary *)
(* ===================================================================== *)

(** Strict lexicographic order on names, the order [strcmp] decides. *)
Definition str_lt (a b : string) : Prop := String.compare a b = Lt.

(** [tree_all P t]: every category name stored in [t] satisfies [P]. *)
Fixpoint tree_all (P : string -> Prop) (t : CategoryNode) : Prop :=
  match t with
  | Null => True
  | Node l c _ r => P c /\ tree_all P l /\ tree_all P r
  end.

(** The ordering invariant of the category index: at every node the names
    of the left subtree are below the node's name and those of the right
    subtree are above it. *)
Fixpoint BST (t : CategoryNode) : Prop :=
  match t with
  | Null => True
  | Node l c _ r =>
      tree_all (fun x => str_lt x c) l /\ tree_all (fun x => str_lt c x) r
      /\ BST l /\ BST r
  end.

(** The index obtained by inserting [names], first to last, into the empty
    index, as menu choice 1 does with [root]. *)
Definition insert_all (names : list string) : CategoryNode :=
  fold_left insertCategory names Null.

(** The products owned by category [c]: the list head of the node that
    [findCategory] returns. *)
Definition products_of (t : CategoryNode) (c : string) : ProductPtr :=
  match findCategory t c with
  | Null => []
  | Node _ _ ps _ => ps
  end.

(** [root->productsHead], the list that menu choices 7 and 8 hand to the
    analysis and to the report. *)
Definition root_products (root : CategoryNode) : ProductPtr :=
  match root with
  | Null => []
  | Node _ _ ps _ => ps
  end.

Definition sum_quantities (l : list Product) : Z :=
  fold_right (fun p acc => quantity p + acc) 0 l.

(** [index_products P t]: every product of every category of [t]
    satisfies [P]. *)
Fixpoint index_products (P : Product -> Prop) (t : CategoryNode) : Prop :=
  match t with
  | Null => True
  | Node l _ ps r => index_products P l /\ Forall P ps /\ index_products P r
  end.

(** The exact mean of the quantities of a list. *)
Definition exact_average (l : list Product) : Q :=
  Qdiv (inject_Z (sum_quantities l)) (inject_Z (Z.of_nat (List.length l))).

(** The two tests of the second loop of [analyzeProducts]. *)
Definition is_low (averageQuantity : double) (p : Product) : bool :=
  double_lt (double_of_int (quantity p)) averageQuantity.

Definition is_high (averageQuantity : double) (p : Product) : bool :=
  double_lt averageQuantity (double_of_int (quantity p)).

(** [max_upto done current ptr]: of the nodes [done] already visited, [ptr]
    points to the first one that carries the largest quantity; [current]
    is the part of the list not visited yet. *)
Definition max_upto (done current ptr : ProductPtr) : Prop :=
  exists pre p mid,
    done = pre ++ p :: mid /\ ptr = p :: mid ++ current
    /\ Forall (fun x => quantity x < quantity p) pre
    /\ Forall (fun x => quantity x <= quantity p) mid.

Definition min_upto (done current ptr : ProductPtr) : Prop :=
  exists pre p mid,
    done = pre ++ p :: mid /\ ptr = p :: mid ++ current
    /\ Forall (fun x => quantity p < quantity x) pre
    /\ Forall (fun x => quantity p <= quantity x) mid.

(** [ptr] points into [head], to the first product whose quantity is the
    largest of the list: the products before it have strictly smaller
    quantities, those after it have quantities that are not larger. *)
Definition first_max (head ptr : ProductPtr) : Prop :=
  exists pre p rest,
    head = pre ++ p :: rest /\ ptr = p :: rest
    /\ Forall (fun x => quantity x < quantity p) pre
    /\ Forall (fun x => quantity x <= quantity p) rest.

Definition first_min (head ptr : ProductPtr) : Prop :=
  exists pre p rest,
    head = pre ++ p :: rest /\ ptr = p :: rest
    /\ Forall (fun x => quantity p < quantity x) pre
    /\ Forall (fun x => quantity p <= quantity x) rest.

(* ===================================================================== *)
(** ** Analysis report and the menu calls on the root category *)
(* ===================================================================== *)

(** The lines of [printAnalysisReport], one constructor per [printf] call;
    the average is carried as the [double] that ["%.2f"] formats. *)
Inductive ReportLine : Type :=
| RpTotal (total : Z)
| RpAverage (average : double)
| RpMax (id qty : Z)
| RpMin (id qty : Z)
| RpLowHeader
| RpHighHeader
| RpStock (id qty : Z).

(** [printAnalysisReport]: [None] stands for reading
    [result.maxStockProduct->productId] (or the minimum's) through a null
    pointer, after which the program has no defined behaviour. *)
Definition printAnalysisReport (head : ProductPtr)
  : option (list ReportLine) :=
  let result := analyzeProducts head in
  match maxStockProduct result, minStockProduct result with
  | mx :: _, mn :: _ =>
      Some ([RpTotal (totalQuantity result);
             RpAverage (averageQuantity result);
             RpMax (productId mx) (quantity mx);
             RpMin (productId mn) (quantity mn);
             RpLowHeader]
            ++ map (fun p => RpStock (productId p) (quantity p))
                   (lowStockProducts result)
            ++ RpHighHeader
            :: map (fun p => RpStock (productId p) (quantity p))
                   (highStockProducts result))
  | _, _ => None
  end.

(** Menu choice 7, [printAnalysisReport(root->productsHead)]: the list is
    read through [root], which is null while the index is empty. *)
Definition menu_analyze (root : CategoryNode) : option (list ReportLine) :=
  match root with
  | Null => None
  | Node _ _ ps _ => printAnalysisReport ps
  end.

(** Menu choice 8, [printProductsReport(root->productsHead)]. *)
Definition menu_products_list (root : CategoryNode) : option (list Line) :=
  match root with
  | Null => None
  | Node _ _ ps _ => printProductsReport ps
  end.

(* ===================================================================== *)
(** ** Further specification vocabulary *)
(* ===================================================================== *)

(** The products of the whole index in the order [displayCategories]
    prints them: category by category in in-order, each list front to
    back. *)
Fixpoint all_products (t : CategoryNode) : list Product :=
  match t with
  | Null => []
  | Node l _ ps r => all_products l ++ ps ++ all_products r
  end.

(** [index_map f t]: the index [t] with [f] applied to every product. *)
Fixpoint index_map (f : Product -> Product) (t : CategoryNode)
  : CategoryNode :=
  match t with
  | Null => Null
  | Node l c ps r => Node (index_map f l) c (map f ps) (index_map f r)
  end.

(** Forget the quantity of the products that carry [id]; every other
    product is kept as it is. *)
Definition forget_quantity_of (id : Z) (p : Product) : Product :=
  if productId p =? id then set_quantity p 0 else p.

(** The name that takes the place of [category] when [deleteCategory]
    meets it at a node with two children (the least name of the right
    subtree); [None] when the name is absent or its node has at most one
    child. *)
Fixpoint successor_of (node : CategoryNode) (category : string)
  : option string :=
  match node with
  | Null => None
  | Node l c _ r =>
      if strcmp category c <? 0 then successor_of l category
      else if strcmp category c >? 0 then successor_of r category
      else
        match l, r with
        | Null, _ => None
        | _, Null => None
        | _, _ => Some (leftmost_category r c)
        end
  end.

(* ===================================================================== *)
(** * Properties *)
(* ===================================================================== *)

(** ** The order decided by [strcmp] *)

Section StringOrder.

Lemma ascii_compare_refl (a : ascii) : Ascii.compare a a = Eq.
Proof. unfold Ascii.compare. apply N.compare_refl. Qed.

Lemma ascii_compare_lt_trans (a b c : ascii) :
  Ascii.compare a b = Lt -> Ascii.compare b c = Lt ->
  Ascii.compare a c = Lt.
Proof.
  unfold Ascii.compare. rewrite !N.compare_lt_iff. apply N.lt_trans.
Qed.

Lemma string_compare_refl (s : string) : String.compare s s = Eq.
Proof.
  induction s as [|a s IH]; simpl; [reflexivity|].
  now rewrite ascii_compare_refl.
Qed.

Lemma string_compare_eq (s1 s2 : string) :
  String.compare s1 s2 = Eq <-> s1 = s2.
Proof.
  split; [apply String.compare_eq_iff|].
  intros ->. apply string_compare_refl.
Qed.

Lemma str_lt_trans (s1 s2 s3 : string) :
  str_lt s1 s2 -> str_lt s2 s3 -> str_lt s1 s3.
Proof.
  unfold str_lt. revert s2 s3.
  induction s1 as [|a s1 IH]; intros [|b s2] [|c s3]; simpl;
    try discriminate; try reflexivity.
  destruct (Ascii.compare a b) eqn:Hab; try discriminate;
    destruct (Ascii.compare b c) eqn:Hbc; try discriminate; intros H1 H2.
  - apply Ascii.compare_eq_iff in Hab, Hbc. subst.
    rewrite ascii_compare_refl. eauto.
  - apply Ascii.compare_eq_iff in Hab. subst. now rewrite Hbc.
  - apply Ascii.compare_eq_iff in Hbc. subst. now rewrite Hab.
  - now rewrite (ascii_compare_lt_trans _ _ _ Hab Hbc).
Qed.

Lemma str_lt_irrefl (s : string) : ~ str_lt s s.
Proof. unfold str_lt. now rewrite string_compare_refl. Qed.

Lemma str_lt_asym (a b : string) : str_lt a b -> ~ str_lt b a.
Proof. intros H1 H2. exact (str_lt_irrefl a (str_lt_trans _ _ _ H1 H2)). Qed.

Lemma str_gt_lt (a b : string) : String.compare a b = Gt <-> str_lt b a.
Proof.
  unfold str_lt. rewrite (String.compare_antisym b a).
  destruct (String.compare a b); cbv; split; congruence.
Qed.

(** The three outcomes of [strcmp] as the code tests them. *)
Lemma strcmp_lt (a b : string) : (strcmp a b <? 0) = true <-> str_lt a b.
Proof.
  unfold strcmp, str_lt.
  destruct (String.compare a b); cbv; split; congruence.
Qed.

Lemma strcmp_gt (a b : string) : (strcmp a b >? 0) = true <-> str_lt b a.
Proof.
  rewrite <- str_gt_lt. unfold strcmp.
  destruct (String.compare a b); cbv; split; congruence.
Qed.

Lemma strcmp_eq (a b : string) : (strcmp a b =? 0) = true <-> a = b.
Proof.
  rewrite <- string_compare_eq. unfold strcmp.
  destruct (String.compare a b); cbv; split; congruence.
Qed.

(** Case analysis on a comparison, in the terms the proofs use. *)
Lemma strcmp_cases (a b : string) :
  (str_lt a b /\ (strcmp a b <? 0) = true)
  \/ (str_lt b a /\ (strcmp a b <? 0) = false /\ (strcmp a b >? 0) = true)
  \/ (a = b /\ (strcmp a b <? 0) = false /\ (strcmp a b >? 0) = false).
Proof.
  pose proof (strcmp_lt a b) as Hl. pose proof (strcmp_gt a b) as Hg.
  pose proof (string_compare_eq a b) as He.
  unfold strcmp in *.
  destruct (String.compare a b) eqn:E; cbv in Hl, Hg |- *.
  - right; right. intuition.
  - left. intuition.
  - right; left. intuition.
Qed.

End StringOrder.

(** ** The category index: insertion and in-order display *)

Section CategoryIndex.

Lemma category_lines_app (a b : list Line) :
  category_lines (a ++ b) = category_lines a ++ category_lines b.
Proof. unfold category_lines. apply flat_map_app. Qed.

Lemma category_lines_products (ps : ProductPtr) :
  category_lines (displayProducts ps) = [].
Proof. induction ps as [|p ps IH]; simpl; auto. Qed.

Lemma inorder_node l c ps r :
  inorder (Node l c ps r) = inorder l ++ c :: inorder r.
Proof.
  unfold inorder. simpl.
  rewrite category_lines_app. simpl.
  now rewrite category_lines_app, category_lines_products.
Qed.

Lemma tree_all_inorder (P : string -> Prop) t :
  tree_all P t <-> (forall x, In x (inorder t) -> P x).
Proof.
  induction t as [|l IHl c ps r IHr]; simpl.
  - split; [intros _ x []|trivial].
  - rewrite inorder_node, IHl, IHr. split.
    + intros (Hc & Hl & Hr) x Hx. apply in_app_or in Hx.
      destruct Hx as [Hx|[<-|Hx]]; auto.
    + intros H. repeat split; intros; apply H; apply in_or_app;
        simpl; auto.
Qed.

Lemma insert_inorder_in t k x :
  In x (inorder (insertCategory t k)) <-> x = k \/ In x (inorder t).
Proof.
  induction t as [|l IHl c ps r IHr]; simpl.
  - unfold inorder, strcpy. simpl. intuition.
  - destruct (strcmp_cases k c) as [(_ & ->)|[(_ & -> & ->)|(-> & -> & ->)]];
      rewrite ?inorder_node, ?in_app_iff; simpl;
      rewrite ?IHl, ?IHr, ?in_app_iff; simpl; intuition.
Qed.

Lemma insert_tree_all (P : string -> Prop) t k :
  P k -> tree_all P t -> tree_all P (insertCategory t k).
Proof.
  intros Hk Ht. apply tree_all_inorder. intros x Hx.
  apply insert_inorder_in in Hx. destruct Hx as [->|Hx]; auto.
  revert x Hx. now apply tree_all_inorder.
Qed.

Lemma insert_BST t k : BST t -> BST (insertCategory t k).
Proof.
  induction t as [|l IHl c ps r IHr]; simpl.
  - intuition.
  - intros (Hl & Hr & Bl & Br).
    destruct (strcmp_cases k c) as [(L & ->)|[(G & -> & ->)|(-> & -> & ->)]];
      simpl; repeat split; auto using insert_tree_all.
Qed.

Lemma sorted_app_cons (l1 l2 : list string) (c : string) :
  StronglySorted str_lt l1 -> StronglySorted str_lt l2 ->
  (forall x, In x l1 -> str_lt x c) -> (forall y, In y l2 -> str_lt c y) ->
  StronglySorted str_lt (l1 ++ c :: l2).
Proof.
  intros S1 S2 H1 H2. induction S1 as [|a l1 S1 IH Ha]; simpl.
  - constructor; [exact S2|]. apply Forall_forall. exact H2.
  - constructor.
    + apply IH. intros x Hx. apply H1. now right.
    + apply Forall_forall. intros x Hx. apply in_app_or in Hx.
      destruct Hx as [Hx|[<-|Hx]].
      * rewrite Forall_forall in Ha. auto.
      * apply H1. now left.
      * apply str_lt_trans with c; [apply H1; now left|auto].
Qed.

Lemma BST_sorted t : BST t -> StronglySorted str_lt (inorder t).
Proof.
  induction t as [|l IHl c ps r IHr]; simpl.
  - intros _. constructor.
  - intros (Hl & Hr & Bl & Br). rewrite inorder_node.
    apply sorted_app_cons; auto; now apply tree_all_inorder.
Qed.

Lemma sorted_NoDup (l : list string) : StronglySorted str_lt l -> NoDup l.
Proof.
  induction 1 as [|a l S IH Ha]; constructor; auto.
  intros Hin. rewrite Forall_forall in Ha.
  exact (str_lt_irrefl a (Ha a Hin)).
Qed.

(** A strictly sorted list is determined by its set of elements. *)
Lemma sorted_ext (l1 l2 : list string) :
  StronglySorted str_lt l1 -> StronglySorted str_lt l2 ->
  (forall x, In x l1 <-> In x l2) -> l1 = l2.
Proof.
  intros S1. revert l2.
  induction S1 as [|a l1 S1 IH Ha]; intros l2 S2 Hext.
  - destruct l2 as [|b l2]; [reflexivity|].
    exfalso. apply (proj2 (Hext b)). now left.
  - destruct S2 as [|b l2 S2 Hb].
    + exfalso. apply (proj1 (Hext a)). now left.
    + rewrite Forall_forall in Ha, Hb.
      assert (a = b) as <-.
      { destruct (proj1 (Hext a) (or_introl eq_refl)) as [E|Hab]; auto.
        destruct (proj2 (Hext b) (or_introl eq_refl)) as [E|Hba]; auto.
        exfalso. exact (str_lt_asym _ _ (Hb _ Hab) (Ha _ Hba)). }
      f_equal. apply IH; auto. intros x. split; intros Hx.
      * destruct (proj1 (Hext x) (or_intror Hx)) as [<-|H]; auto.
        exfalso. exact (str_lt_irrefl _ (Ha _ Hx)).
      * destruct (proj2 (Hext x) (or_intror Hx)) as [<-|H]; auto.
        exfalso. exact (str_lt_irrefl _ (Hb _ Hx)).
Qed.

(** Inserting a name the index already holds changes nothing. *)
Lemma insert_present t k :
  BST t -> In k (inorder t) -> insertCategory t k = t.
Proof.
  induction t as [|l IHl c ps r IHr]; simpl.
  - intros _ [].
  - intros (Hl & Hr & Bl & Br) Hin. rewrite inorder_node in Hin.
    rewrite tree_all_inorder in Hl, Hr.
    destruct (strcmp_cases k c) as [(L & ->)|[(G & -> & ->)|(-> & -> & ->)]];
      [| |reflexivity]; f_equal.
    + apply IHl; auto. apply in_app_or in Hin.
      destruct Hin as [H|[->|H]]; auto.
      * exfalso. exact (str_lt_irrefl _ L).
      * exfalso. exact (str_lt_asym _ _ L (Hr _ H)).
    + apply IHr; auto. apply in_app_or in Hin.
      destruct Hin as [H|[->|H]]; auto.
      * exfalso. exact (str_lt_asym _ _ G (Hl _ H)).
      * exfalso. exact (str_lt_irrefl _ G).
Qed.

Lemma fold_insert_spec (names : list string) (t0 : CategoryNode) :
  BST t0 ->
  BST (fold_left insertCategory names t0)
  /\ (forall x, In x (inorder (fold_left insertCategory names t0))
                <-> In x names \/ In x (inorder t0)).
Proof.
  revert t0. induction names as [|n names IH]; intros t0 B0; simpl.
  - split; [exact B0|]. intuition.
  - destruct (IH (insertCategory t0 n) (insert_BST _ _ B0)) as [B E].
    split; [exact B|]. intros x. rewrite E, insert_inorder_in.
    intuition.
Qed.

Lemma insert_all_BST (names : list string) : BST (insert_all names).
Proof. apply fold_insert_spec. exact I. Qed.

Lemma insert_all_in (names : list string) (x : string) :
  In x (inorder (insert_all names)) <-> In x names.
Proof.
  unfold insert_all.
  destruct (fold_insert_spec names Null I) as [_ E].
  rewrite E. unfold inorder. simpl. intuition.
Qed.

(** C4.  Whatever names are inserted into the empty index, and in
    whatever order, the in-order display lists the category names in
    strictly ascending lexicographic order, hence without duplicates; the
    names listed are exactly the inserted ones; two insertion sequences
    with the same set of names give the same listing; and inserting a
    name that is already there returns the tree unchanged. *)
Theorem insert_all_inorder_sorted (names : list string) :
  StronglySorted str_lt (inorder (insert_all names))
  /\ NoDup (inorder (insert_all names))
  /\ (forall x, In x (inorder (insert_all names)) <-> In x names)
  /\ (forall names', (forall x, In x names <-> In x names') ->
        inorder (insert_all names') = inorder (insert_all names))
  /\ (forall x, In x names ->
        insertCategory (insert_all names) x = insert_all names).
Proof.
  pose proof (BST_sorted _ (insert_all_BST names)) as S.
  repeat split.
  - exact S.
  - now apply sorted_NoDup.
  - now apply insert_all_in.
  - now apply insert_all_in.
  - intros names' Hext. apply sorted_ext; auto.
    + apply BST_sorted, insert_all_BST.
    + intros x. rewrite !insert_all_in. symmetry. apply Hext.
  - intros x Hx. apply insert_present; [apply insert_all_BST|].
    now apply insert_all_in.
Qed.

End CategoryIndex.

(** ** The category index: search and deletion *)

Section CategoryDeletion.

Lemma strcmp_refl (a : string) : strcmp a a = 0.
Proof. unfold strcmp. now rewrite string_compare_refl. Qed.

Lemma strcmp_neq (a b : string) : a <> b -> (strcmp a b =? 0) = false.
Proof.
  intros N. destruct (strcmp a b =? 0) eqn:E; [|reflexivity].
  apply strcmp_eq in E. contradiction.
Qed.

Lemma str_lt_neq (a b : string) : str_lt a b -> a <> b.
Proof. intros L ->. exact (str_lt_irrefl _ L). Qed.

(** [findCategory] finds exactly the names listed by the display. *)
Lemma find_in t k :
  BST t -> (findCategory t k <> Null <-> In k (inorder t)).
Proof.
  induction t as [|l IHl c ps r IHr]; simpl.
  - intros _. unfold inorder. simpl. intuition.
  - intros (Hl & Hr & Bl & Br). rewrite inorder_node, in_app_iff. simpl.
    rewrite tree_all_inorder in Hl, Hr.
    destruct (strcmp_cases k c) as [(L & E)|[(G & E & _)|(-> & E & _)]].
    + rewrite (strcmp_neq _ _ (str_lt_neq _ _ L)), E, (IHl Bl).
      split; [auto|]. intros [H|[->|H]]; auto.
      * exfalso. exact (str_lt_irrefl _ L).
      * exfalso. exact (str_lt_asym _ _ L (Hr _ H)).
    + rewrite (strcmp_neq k c), E, (IHr Br).
      * split; [auto|]. intros [H|[->|H]]; auto.
        -- exfalso. exact (str_lt_asym _ _ G (Hl _ H)).
        -- exfalso. exact (str_lt_irrefl _ G).
      * intros ->. exact (str_lt_irrefl _ G).
    + rewrite strcmp_refl. simpl. split; [auto|discriminate].
Qed.

Lemma find_absent t k :
  BST t -> ~ In k (inorder t) -> findCategory t k = Null.
Proof.
  intros B N. destruct (findCategory t k) eqn:E; [reflexivity|].
  exfalso. apply N, (find_in t k B). rewrite E. discriminate.
Qed.

(** The successor walk returns the least name of a non-empty subtree. *)
Lemma leftmost_in l c ps r d :
  In (leftmost_category (Node l c ps r) d) (inorder (Node l c ps r)).
Proof.
  revert c ps r. induction l as [|ll IHll lc lps lr _]; intros c ps r.
  - rewrite inorder_node. apply in_or_app. right. now left.
  - change (leftmost_category (Node (Node ll lc lps lr) c ps r) d)
      with (leftmost_category (Node ll lc lps lr) d).
    rewrite (inorder_node (Node ll lc lps lr)).
    apply in_or_app. left. apply IHll.
Qed.

Lemma leftmost_least l c ps r d x :
  BST (Node l c ps r) -> In x (inorder (Node l c ps r)) ->
  x = leftmost_category (Node l c ps r) d
  \/ str_lt (leftmost_category (Node l c ps r) d) x.
Proof.
  revert c ps r x. induction l as [|ll IHll lc lps lr _];
    intros c ps r x B Hx.
  - destruct B as (_ & Hr & _). rewrite inorder_node in Hx.
    rewrite tree_all_inorder in Hr.
    destruct Hx as [<-|Hx]; simpl; auto.
  - change (leftmost_category (Node (Node ll lc lps lr) c ps r) d)
      with (leftmost_category (Node ll lc lps lr) d).
    destruct B as (Hl & Hr & Bl & Br).
    rewrite (inorder_node (Node ll lc lps lr)) in Hx.
    rewrite tree_all_inorder in Hl, Hr.
    pose proof (leftmost_in ll lc lps lr d) as Hm.
    apply in_app_or in Hx. destruct Hx as [Hx|[<-|Hx]].
    + now apply IHll.
    + right. now apply Hl.
    + right. apply str_lt_trans with c; auto.
Qed.

Lemma delete_inorder_in t k x :
  BST t ->
  (In x (inorder (deleteCategory t k)) <-> In x (inorder t) /\ x <> k).
Proof.
  revert k. induction t as [|l IHl c ps r IHr]; intros k.
  - simpl. unfold inorder. simpl. intuition.
  - intros B. pose proof B as (Hl & Hr & Bl & Br).
    rewrite tree_all_inorder in Hl, Hr. simpl.
    destruct (strcmp_cases k c) as [(L & ->)|[(G & -> & ->)|(-> & -> & ->)]].
    + rewrite !inorder_node, !in_app_iff. simpl. rewrite (IHl k Bl).
      split.
      * intros [[H N]|[<-|H]]; split; auto.
        -- intros ->. exact (str_lt_irrefl _ L).
        -- intros ->. exact (str_lt_asym _ _ L (Hr _ H)).
      * intros [[H|[<-|H]] N]; auto.
    + rewrite !inorder_node, !in_app_iff. simpl. rewrite (IHr k Br).
      split.
      * intros [H|[<-|[H N]]]; split; auto.
        -- intros ->. exact (str_lt_asym _ _ G (Hl _ H)).
        -- intros ->. exact (str_lt_irrefl _ G).
      * intros [[H|[<-|H]] N]; auto.
    + destruct l as [|ll lc lps lr].
      * rewrite inorder_node. unfold inorder at 2. simpl. split.
        -- intros H. split; auto. intros ->.
           exact (str_lt_irrefl _ (Hr _ H)).
        -- intros [[<-|H] N]; [contradiction|exact H].
      * destruct r as [|rl rc rps rr].
        -- rewrite (inorder_node _ c ps Null), in_app_iff.
           unfold inorder at 3. simpl. split.
           ++ intros H. split; auto. intros ->.
              exact (str_lt_irrefl _ (Hl _ H)).
           ++ intros [[H|[<-|[]]] N]; [exact H|contradiction].
        -- set (L := Node ll lc lps lr) in *.
           set (R := Node rl rc rps rr) in *.
           set (m := leftmost_category R c).
           unfold strcpy.
           rewrite (inorder_node L m ps), (inorder_node L c ps R),
             !in_app_iff.
           cbn [In]. rewrite (IHr m Br).
           pose proof (leftmost_in rl rc rps rr c) as Hm. fold R m in Hm.
           split.
           ++ intros [H|[<-|[H N]]]; split; auto.
              ** intros ->. exact (str_lt_irrefl _ (Hl _ H)).
              ** intros E. apply (str_lt_irrefl c). rewrite <- E at 2.
                 now apply Hr.
              ** intros ->. exact (str_lt_irrefl _ (Hr _ H)).
           ++ intros [[H|[<-|H]] N]; auto; [contradiction|].
              destruct (string_dec m x) as [E|E]; auto.
Qed.

Lemma delete_BST t k : BST t -> BST (deleteCategory t k).
Proof.
  revert k. induction t as [|l IHl c ps r IHr]; intros k; [trivial|].
  intros B. pose proof B as (Hl & Hr & Bl & Br). simpl.
  destruct (strcmp_cases k c) as [(L & ->)|[(G & -> & ->)|(-> & -> & ->)]].
  - simpl. repeat split; auto.
    apply tree_all_inorder. intros x Hx.
    apply (delete_inorder_in l k x Bl) in Hx.
    rewrite tree_all_inorder in Hl. now apply Hl.
  - simpl. repeat split; auto.
    apply tree_all_inorder. intros x Hx.
    apply (delete_inorder_in r k x Br) in Hx.
    rewrite tree_all_inorder in Hr. now apply Hr.
  - destruct l as [|ll lc lps lr]; [exact Br|].
    destruct r as [|rl rc rps rr]; [exact Bl|].
    set (L := Node ll lc lps lr) in *. set (R := Node rl rc rps rr) in *.
    set (m := leftmost_category R c). unfold strcpy.
    pose proof (leftmost_in rl rc rps rr c) as Hm. fold R m in Hm.
    rewrite tree_all_inorder in Hl, Hr.
    change (tree_all (fun x => str_lt x m) L
            /\ tree_all (fun x => str_lt m x) (deleteCategory R m)
            /\ BST L /\ BST (deleteCategory R m)).
    split; [|split; [|split]]; auto.
    + apply tree_all_inorder. intros x Hx.
      apply str_lt_trans with c; auto.
    + apply tree_all_inorder. intros x Hx.
      apply (delete_inorder_in R m x Br) in Hx. destruct Hx as [Hx N].
      destruct (leftmost_least rl rc rps rr c x Br Hx) as [E|E]; auto.
      contradiction.
Qed.

(** Deleting a name the index does not hold returns the same tree. *)
Lemma delete_absent t k :
  BST t -> ~ In k (inorder t) -> deleteCategory t k = t.
Proof.
  induction t as [|l IHl c ps r IHr]; [reflexivity|].
  intros (Hl & Hr & Bl & Br) N. rewrite inorder_node in N. simpl.
  destruct (strcmp_cases k c) as [(L & ->)|[(G & -> & ->)|(-> & -> & ->)]].
  - f_equal. apply IHl; auto. intros H. apply N, in_or_app. now left.
  - f_equal. apply IHr; auto. intros H. apply N, in_or_app.
    right. now right.
  - exfalso. apply N, in_or_app. right. now left.
Qed.

(** X19.  What [deleteCategory] guarantees about the names of the index:
    the ordering invariant is kept, the deleted name is no longer found,
    every other name is found exactly when it was before, and an absent
    name leaves the tree as it is. *)
Lemma deleteCategory_names t k :
  BST t ->
  BST (deleteCategory t k)
  /\ findCategory (deleteCategory t k) k = Null
  /\ (forall x, x <> k ->
        (findCategory (deleteCategory t k) x <> Null
         <-> findCategory t x <> Null))
  /\ (~ In k (inorder t) -> deleteCategory t k = t).
Proof.
  intros B. pose proof (delete_BST t k B) as B'.
  repeat split; auto.
  - apply find_absent; auto. rewrite delete_inorder_in by exact B.
    intuition.
  - rewrite (find_in _ x B'), (find_in _ x B), delete_inorder_in by exact B.
    intuition.
  - rewrite (find_in _ x B'), (find_in _ x B), delete_inorder_in by exact B.
    intuition.
  - now apply delete_absent.
Qed.

(** The two-child case: the node keeps its own product list under the
    successor's name, and the successor's node, with its product list, is
    the one unlinked from the right subtree. *)
Lemma deleteCategory_two_children ll lc lps lr c ps rl rc rps rr :
  let L := Node ll lc lps lr in
  let R := Node rl rc rps rr in
  deleteCategory (Node L c ps R) c
  = Node L (leftmost_category R c) ps
         (deleteCategory R (leftmost_category R c)).
Proof.
  intros L R. simpl. rewrite strcmp_refl. reflexivity.
Qed.

End CategoryDeletion.

(** ** Product lists: search and assignment through the found pointer *)

Section ProductLists.

(** [findProduct] returns the first node carrying the ID, together with
    everything after it; the nodes before it carry other IDs. *)
Lemma findProduct_found head id p rest :
  findProduct head id = p :: rest ->
  exists pre, head = pre ++ p :: rest /\ productId p = id
              /\ Forall (fun x => productId x <> id) pre.
Proof.
  induction head as [|h head IH]; simpl; [discriminate|].
  destruct (productId h =? id) eqn:E.
  - intros [= -> ->]. exists []. apply Z.eqb_eq in E. auto.
  - intros H. destruct (IH H) as (pre & -> & Hid & Hpre).
    exists (h :: pre). apply Z.eqb_neq in E. auto.
Qed.

Lemma findProduct_first pre p rest id :
  productId p = id -> Forall (fun x => productId x <> id) pre ->
  findProduct (pre ++ p :: rest) id = p :: rest.
Proof.
  intros Hid Hpre. induction Hpre as [|h pre Hh _ IH]; simpl.
  - apply Z.eqb_eq in Hid. now rewrite Hid.
  - apply Z.eqb_neq in Hh. now rewrite Hh.
Qed.

Lemma findProduct_none head id :
  findProduct head id = [] <-> Forall (fun x => productId x <> id) head.
Proof.
  induction head as [|h head IH]; simpl.
  - split; auto.
  - destruct (productId h =? id) eqn:E.
    + apply Z.eqb_eq in E. split; [discriminate|].
      intros H. inversion H. contradiction.
    + apply Z.eqb_neq in E. rewrite IH. split; intros H.
      * now constructor.
      * now inversion H.
Qed.

Lemma store_quantity_at pre p rest q :
  store_quantity (pre ++ p :: rest) (p :: rest) q
  = pre ++ set_quantity p q :: rest.
Proof.
  unfold store_quantity. f_equal.
  rewrite length_app.
  replace (List.length pre + List.length (p :: rest)
           - List.length (p :: rest))%nat with (List.length pre) by lia.
  rewrite firstn_app, firstn_all, Nat.sub_diag. simpl.
  apply app_nil_r.
Qed.

End ProductLists.

(** ** Quantity update and decrease on one category's list *)

Section QuantityUpdates.

Variable c : string.

(** The index whose only category is [c], owning the list [ps]. *)
Let single (ps : ProductPtr) : CategoryNode := Node Null c ps Null.

Lemma updateProduct_absent ps id q :
  findProduct ps id = [] -> updateProduct (single ps) id q = (single ps, []).
Proof. intros H. unfold single. simpl. now rewrite H. Qed.

Lemma updateProduct_found pre p rest id q :
  productId p = id -> Forall (fun x => productId x <> id) pre ->
  updateProduct (single (pre ++ p :: rest)) id q
  = (single (pre ++ set_quantity p q :: rest), [LnUpdated q]).
Proof.
  intros Hid Hpre. unfold single. simpl.
  rewrite (findProduct_first pre p rest id Hid Hpre).
  now rewrite <- (store_quantity_at pre p rest q).
Qed.

Lemma deleteProduct_absent ps id amount :
  findProduct ps id = [] ->
  deleteProduct (single ps) id amount = (single ps, []).
Proof. intros H. unfold single. simpl. now rewrite H. Qed.

Lemma deleteProduct_enough pre p rest id amount :
  productId p = id -> Forall (fun x => productId x <> id) pre ->
  amount <= quantity p ->
  deleteProduct (single (pre ++ p :: rest)) id amount
  = (single (pre ++ set_quantity p (CInt.sub (quantity p) amount) :: rest),
     [LnDecreased amount (CInt.sub (quantity p) amount)]).
Proof.
  intros Hid Hpre Hq. unfold single. simpl.
  rewrite (findProduct_first pre p rest id Hid Hpre).
  replace (quantity p >=? amount) with true
    by (symmetry; apply Z.geb_le; lia).
  now rewrite <- (store_quantity_at pre p rest).
Qed.

Lemma deleteProduct_insufficient pre p rest id amount :
  productId p = id -> Forall (fun x => productId x <> id) pre ->
  quantity p < amount ->
  deleteProduct (single (pre ++ p :: rest)) id amount
  = (single (pre ++ p :: rest), [LnNotEnough amount (quantity p)]).
Proof.
  intros Hid Hpre Hq. unfold single. simpl.
  rewrite (findProduct_first pre p rest id Hid Hpre).
  replace (quantity p >=? amount) with false; [reflexivity|].
  symmetry. rewrite Z.geb_leb. apply Z.leb_gt. lia.
Qed.

End QuantityUpdates.

(** ** Machine arithmetic *)

Section MachineArithmetic.

Lemma wrap_in_range (z : Z) : CInt.in_range z -> CInt.wrap z = z.
Proof.
  unfold CInt.in_range, CInt.wrap, CInt.min_int, CInt.max_int, CInt.modulus.
  intros H. rewrite Z.mod_small; lia.
Qed.

Lemma wrap_range (z : Z) : CInt.in_range (CInt.wrap z).
Proof.
  unfold CInt.in_range, CInt.wrap, CInt.min_int, CInt.max_int, CInt.modulus.
  pose proof (Z.mod_pos_bound (z - -2147483648) 4294967296 eq_refl). lia.
Qed.

Lemma wrap_add_l (a b : Z) : CInt.wrap (CInt.wrap a + b) = CInt.wrap (a + b).
Proof.
  unfold CInt.wrap. f_equal.
  replace ((a - CInt.min_int) mod CInt.modulus + CInt.min_int + b
           - CInt.min_int)
    with ((a - CInt.min_int) mod CInt.modulus + b) by lia.
  rewrite Z.add_mod_idemp_l by (unfold CInt.modulus; lia).
  f_equal. lia.
Qed.

End MachineArithmetic.

(** ** Quantity update and decrease on the whole index *)

Section IndexWideUpdates.

Variable id : Z.

(** An ID carried by no product of any category: the index is left as it
    is and no line is printed. *)
Lemma updateProduct_absent_everywhere (t : CategoryNode) (q : Z) :
  index_products (fun x => productId x <> id) t ->
  updateProduct t id q = (t, []).
Proof.
  induction t as [|l IHl c ps r IHr]; [reflexivity|].
  intros (Hl & Hps & Hr). simpl.
  rewrite (IHl Hl), (IHr Hr).
  now rewrite (proj2 (findProduct_none ps id) Hps).
Qed.

Lemma deleteProduct_absent_everywhere (t : CategoryNode) (amount : Z) :
  index_products (fun x => productId x <> id) t ->
  deleteProduct t id amount = (t, []).
Proof.
  induction t as [|l IHl c ps r IHr]; [reflexivity|].
  intros (Hl & Hps & Hr). simpl.
  rewrite (IHl Hl), (IHr Hr).
  now rewrite (proj2 (findProduct_none ps id) Hps).
Qed.

(** No decrease, in whatever categories it takes effect, turns a
    non-negative quantity into a negative one, as long as the subtraction
    fits an [int]. *)
Lemma deleteProduct_keeps_nonnegative (t : CategoryNode) (amount : Z) :
  index_products
    (fun x => 0 <= quantity x /\ quantity x - amount <= CInt.max_int) t ->
  index_products (fun x => 0 <= quantity x) (fst (deleteProduct t id amount)).
Proof.
  assert (W : forall P Q : Product -> Prop, (forall x, P x -> Q x) ->
              forall u, index_products P u -> index_products Q u).
  { intros P Q PQ u. induction u as [|l IHl c ps r IHr]; simpl; [trivial|].
    intros (Hl & Hps & Hr). repeat split; auto.
    eapply Forall_impl; [|exact Hps]. exact PQ. }
  induction t as [|l IHl c ps r IHr]; [trivial|].
  intros (Hl & Hps & Hr). simpl.
  specialize (IHl Hl). specialize (IHr Hr).
  destruct (deleteProduct l id amount) as [l' out_l].
  assert (Hps0 : Forall (fun x => 0 <= quantity x) ps)
    by (eapply Forall_impl; [|exact Hps]; simpl; intuition).
  assert (Hr0 : index_products (fun x => 0 <= quantity x) r)
    by (eapply W; [|exact Hr]; simpl; intuition).
  destruct (findProduct ps id) as [|p rest] eqn:E.
  - destruct (deleteProduct r id amount) as [r' out_r]. simpl in *. auto.
  - destruct (findProduct_found _ _ _ _ E) as (pre & -> & _ & _).
    destruct (quantity p >=? amount) eqn:G; simpl in *; auto.
    split; [exact IHl|]. split; [|exact Hr0].
    change (Forall (fun x => 0 <= quantity x)
              (store_quantity (pre ++ p :: rest) (p :: rest)
                 (CInt.sub (quantity p) amount))).
    rewrite store_quantity_at.
    apply Forall_app in Hps. destruct Hps as [Hpre Hp].
    inversion Hp as [|? ? [Hp0 Hpfit] Hrest]; subst.
    apply Forall_app. split.
    + eapply Forall_impl; [|exact Hpre]. simpl. intuition.
    + constructor.
      * simpl. unfold CInt.sub. apply Z.geb_le in G.
        rewrite wrap_in_range; [lia|].
        unfold CInt.in_range, CInt.min_int. lia.
      * eapply Forall_impl; [|exact Hrest]. simpl. intuition.
Qed.

End IndexWideUpdates.

(** ** Claims about quantity update and decrease *)

(** C9 (as amended).  On a category's list, [updateProduct] overwrites the
    quantity of the first product carrying the ID with the new value,
    whatever the old and new values are, leaves every other product as it
    was and prints the success line; when no product carries the ID the list
    is unchanged, no product is created and nothing at all is printed. *)
Theorem updateProduct_sets_first_match (c : string) (ps : ProductPtr)
  (id q : Z) :
  (findProduct ps id = [] ->
   updateProduct (Node Null c ps Null) id q = (Node Null c ps Null, []))
  /\ (forall pre p rest,
        ps = pre ++ p :: rest -> productId p = id ->
        Forall (fun x => productId x <> id) pre ->
        updateProduct (Node Null c ps Null) id q
        = (Node Null c (pre ++ set_quantity p q :: rest) Null, [LnUpdated q]))
  /\ (findProduct ps id = []
      \/ exists pre p rest,
           ps = pre ++ p :: rest /\ productId p = id
           /\ Forall (fun x => productId x <> id) pre).
Proof.
  split; [apply updateProduct_absent|]. split.
  - intros pre p rest -> Hid Hpre. now apply updateProduct_found.
  - destruct (findProduct ps id) as [|p rest] eqn:E; [now left|right].
    destruct (findProduct_found _ _ _ _ E) as (pre & H). eauto.
Qed.

(** C9, the claim as stated fails: looking for an ID that no product of the
    list carries prints no line, so no not-found condition is reported. *)
Lemma updateProduct_absent_is_silent :
  let hammer := mkProduct 1 "Hammer" 10 "Hammer" in
  findProduct [hammer] 2 = []
  /\ ~ (exists ln,
          In ln (snd (updateProduct (Node Null "Tools" [hammer] Null) 2 5))).
Proof.
  split; [reflexivity|]. intros [ln []].
Qed.

(** C3 (as amended).  On a category's list, [deleteProduct] looks up the
    first product carrying the ID.  With enough stock its quantity becomes
    quantity - amount (in [int] arithmetic) and the new quantity is printed;
    with less stock than the amount the not-enough-stock line is printed and
    the list is unchanged; when no product carries the ID the list is
    unchanged and nothing at all is printed.  A list whose quantities are
    all non-negative keeps only non-negative quantities, as long as
    quantity - amount fits an [int] (which it does for every amount >= 0). *)
Theorem deleteProduct_decreases_first_match (c : string) (ps : ProductPtr)
  (id amount : Z) :
  (findProduct ps id = [] ->
   deleteProduct (Node Null c ps Null) id amount = (Node Null c ps Null, []))
  /\ (forall pre p rest,
        ps = pre ++ p :: rest -> productId p = id ->
        Forall (fun x => productId x <> id) pre ->
        (amount <= quantity p ->
         deleteProduct (Node Null c ps Null) id amount
         = (Node Null c
              (pre ++ set_quantity p (CInt.sub (quantity p) amount) :: rest)
              Null,
            [LnDecreased amount (CInt.sub (quantity p) amount)]))
        /\ (quantity p < amount ->
            deleteProduct (Node Null c ps Null) id amount
            = (Node Null c ps Null, [LnNotEnough amount (quantity p)])))
  /\ (Forall (fun x => 0 <= quantity x) ps ->
      Forall (fun x => quantity x - amount <= CInt.max_int) ps ->
      Forall (fun x => 0 <= quantity x)
        (root_products (fst (deleteProduct (Node Null c ps Null) id amount)))).
Proof.
  split; [apply deleteProduct_absent|]. split.
  - intros pre p rest -> Hid Hpre. split; intros Hq.
    + now apply deleteProduct_enough.
    + now apply deleteProduct_insufficient.
  - intros Hpos Hfit.
    destruct (findProduct ps id) as [|p rest] eqn:E.
    + now rewrite (deleteProduct_absent c ps id amount E).
    + destruct (findProduct_found _ _ _ _ E) as (pre & -> & Hid & Hpre).
      destruct (Z_le_gt_dec amount (quantity p)) as [Hq|Hq].
      * rewrite (deleteProduct_enough c pre p rest id amount Hid Hpre Hq).
        simpl. apply Forall_app in Hpos, Hfit.
        destruct Hpos as [Hpos1 Hpos2], Hfit as [_ Hfit2].
        apply Forall_app. split; [exact Hpos1|].
        inversion Hpos2; subst. inversion Hfit2; subst.
        constructor; [|assumption]. simpl. unfold CInt.sub.
        rewrite wrap_in_range; [lia|].
        unfold CInt.in_range, CInt.min_int. unfold CInt.max_int in *. lia.
      * rewrite (deleteProduct_insufficient c pre p rest id amount Hid Hpre)
          by lia.
        exact Hpos.
Qed.

(** C3, the claim as stated fails twice: an ID that no product carries
    makes [deleteProduct] print nothing, so no not-found condition is
    reported; and a product that entered the list with a negative quantity
    still has it after a decrease that finds too little stock. *)
Lemma deleteProduct_absent_is_silent :
  let hammer := mkProduct 1 "Hammer" 10 "Hammer" in
  let owed := insertProduct [] 4 "Owed" (-5) in
  (findProduct [hammer] 2 = []
   /\ ~ (exists ln,
           In ln (snd (deleteProduct (Node Null "Tools" [hammer] Null) 2 1))))
  /\ map quantity
       (root_products (fst (deleteProduct (Node Null "Tools" owed Null) 4 3)))
     = [-5].
Proof.
  split; [split; [reflexivity|intros [ln []]]|reflexivity].
Qed.

(** ** The products report *)

Section ProductsReport.

(** The inner loop never reads through a null [current]. *)
Lemma sort_inner_nonnull (current index : ProductPtr) :
  current <> [] ->
  exists res, sort_inner current index = Some res /\ res <> [].
Proof.
  funelim (sort_inner current index); intros Hc.
  - eauto.
  - contradiction.
  - apply H. discriminate.
  - apply H. discriminate.
Qed.

(** Both loops run to completion on every list. *)
Lemma sort_outer_returns (current : ProductPtr) :
  sort_outer current = Some tt.
Proof.
  funelim (sort_outer current);
    try match goal with
        | e : sort_inner (?c :: ?cnext) ?cnext = _ |- _ =>
            destruct (sort_inner_nonnull (c :: cnext) cnext) as (res & E & N);
            [discriminate|]; pose proof e as e'; rewrite E in e'
        end.
  - reflexivity.
  - injection e' as ->. contradiction.
  - assumption.
  - discriminate e'.
Qed.

(** The report is the header followed by one row per product, in the
    order of the list handed to the function. *)
Lemma printProductsReport_rows (head : ProductPtr) :
  printProductsReport head
  = Some (LnReportHeader ::
          map (fun p => LnReportRow (productId p) (name p) (quantity p)
                                    (category p)) head).
Proof. unfold printProductsReport. now rewrite sort_outer_returns. Qed.

End ProductsReport.

(** ** Where the program departs from its intended behaviour *)

(** C1.  On the empty list [analyzeProducts] does not stop with an error:
    both loops are skipped, the division [(double)0 / 0] is carried out and
    its NaN is returned as the average, next to a zero total, null maximum
    and minimum pointers and empty result lists. *)
Theorem analyzeProducts_empty_divides :
  analyzeProducts []
  = {| lowStockProducts := [];
       highStockProducts := [];
       maxStockProduct := [];
       minStockProduct := [];
       totalQuantity := 0;
       averageQuantity := DNaN |}
  /\ double_div 0 0 = DNaN.
Proof. split; reflexivity. Qed.

(** C5.  Deleting a category that has two children does not remove its
    products.  With categories A, B, C (B at the root, owning the hammer; C
    owning the apple), deleting B leaves no category named B, but the node
    that held B now carries the name C together with B's product list: the
    hammer is listed and found under C, and the apple, which C owned, is
    gone with the unlinked node. *)
Theorem deleteCategory_two_children_keeps_products :
  let root := insert_all ["B"; "A"; "C"] in
  let root := menu_add_product root "B" 1 "Hammer" 10 in
  let root := menu_add_product root "C" 2 "Apple" 7 in
  BST root
  /\ map name (products_of root "B") = ["Hammer"]
  /\ map name (products_of root "C") = ["Apple"]
  /\ findCategory (deleteCategory root "B") "B" = Null
  /\ map name (products_of (deleteCategory root "B") "C") = ["Hammer"]
  /\ displayCategories (deleteCategory root "B")
     = [LnCategory "A"; LnCategory "C"; LnProduct 1 "Hammer" 10].
Proof. cbv. repeat split; reflexivity. Qed.

(** C6.  The report is not ordered by product ID.  The loops that are
    meant to sort exchange two local pointer variables and never touch a
    list node, so the rows come out in list order: with product 1 inserted
    before product 2, the list is 2, 1 and so is the report. *)
Theorem printProductsReport_keeps_list_order :
  let head := insertProduct (insertProduct [] 1 "Hammer" 10) 2 "Nail" 100 in
  printProductsReport head
  = Some [LnReportHeader; LnReportRow 2 "Nail" 100 "Nail";
          LnReportRow 1 "Hammer" 10 "Hammer"].
Proof. intros head. now rewrite printProductsReport_rows. Qed.

(** C7.  [insertProduct] fills the [category] field of the new product
    from the product's own name: whatever category a product is added to,
    its label is its name.  A hammer added to Tools is labelled Hammer. *)
Theorem insertProduct_category_is_product_name :
  (forall head id nm q,
      exists p, insertProduct head id nm q = p :: head
                /\ category p = nm /\ name p = nm)
  /\ products_of (menu_add_product (insert_all ["Tools"]) "Tools" 1 "Hammer" 10)
       "Tools"
     = [{| productId := 1; name := "Hammer"; quantity := 10;
           category := "Hammer" |}].
Proof.
  split; [|reflexivity].
  intros head id nm q. eexists. split; [reflexivity|]. split; reflexivity.
Qed.

(** C10.  An update or a decrease can modify several products.  The search
    of the left subtree cannot tell its caller that it found the ID, so the
    caller looks into its own list as well: with category A below category
    B and a product 1 in each, both products are changed and the message is
    printed twice. *)
Theorem updateProduct_modifies_several_categories :
  let root := insert_all ["B"; "A"] in
  let root := menu_add_product root "A" 1 "Bolt" 5 in
  let root := menu_add_product root "B" 1 "Nut" 7 in
  (map quantity (products_of (fst (updateProduct root 1 50)) "A") = [50]
   /\ map quantity (products_of (fst (updateProduct root 1 50)) "B") = [50]
   /\ snd (updateProduct root 1 50) = [LnUpdated 50; LnUpdated 50])
  /\ (map quantity (products_of (fst (deleteProduct root 1 2)) "A") = [3]
      /\ map quantity (products_of (fst (deleteProduct root 1 2)) "B") = [5]
      /\ snd (deleteProduct root 1 2) = [LnDecreased 2 3; LnDecreased 2 5]).
Proof. repeat split; reflexivity. Qed.

(** ** Stock analysis *)

Section StockAnalysis.

Lemma double_lt_asym (x y : double) :
  double_lt x y = true -> double_lt y x = false.
Proof.
  destruct x as [| | |a], y as [| | |b]; simpl; try congruence.
  rewrite <- (Qcompare_antisym a b).
  destruct (Qcompare a b); simpl; congruence.
Qed.

Lemma double_lt_fin (a b : Q) :
  double_lt (DFin a) (DFin b) = true <-> Qlt a b.
Proof.
  simpl. rewrite Qlt_alt.
  destruct (Qcompare a b); split; congruence.
Qed.

(** The first loop: count and total, up to the wrap-around of [int]. *)
Lemma first_pass_sums (current : ProductPtr) :
  forall count total maxS minS count' total' maxS' minS',
    analyze_first_pass current count total maxS minS
    = (count', total', maxS', minS') ->
    CInt.wrap count' = CInt.wrap (count + Z.of_nat (List.length current))
    /\ CInt.wrap total' = CInt.wrap (total + sum_quantities current)
    /\ (CInt.in_range count -> CInt.in_range count')
    /\ (CInt.in_range total -> CInt.in_range total').
Proof.
  induction current as [|p next IH];
    intros count total maxS minS count' total' maxS' minS' E.
  - simpl in E. injection E as <- <- _ _. simpl.
    rewrite !Z.add_0_r. auto.
  - cbn [analyze_first_pass] in E. apply IH in E.
    destruct E as (Ec & Et & Rc & Rt).
    unfold CInt.add in *. rewrite wrap_add_l in Ec, Et.
    split; [|split; [|split]].
    + rewrite Ec. f_equal. rewrite length_cons. lia.
    + rewrite Et. f_equal. simpl. lia.
    + intros _. apply Rc, wrap_range.
    + intros _. apply Rt, wrap_range.
Qed.

(** The first loop: the maximum and minimum pointers. *)
Lemma first_pass_extremes (current : ProductPtr) :
  forall done count total maxS minS count' total' maxS' minS',
    (done = [] /\ maxS = [] \/ max_upto done current maxS) ->
    (done = [] /\ minS = [] \/ min_upto done current minS) ->
    analyze_first_pass current count total maxS minS
    = (count', total', maxS', minS') ->
    (done ++ current = [] /\ maxS' = []
     \/ max_upto (done ++ current) [] maxS')
    /\ (done ++ current = [] /\ minS' = []
        \/ min_upto (done ++ current) [] minS').
Proof.
  induction current as [|p next IH];
    intros done count total maxS minS count' total' maxS' minS' Hmax Hmin E.
  - simpl in E. injection E as _ _ <- <-. rewrite app_nil_r.
    split.
    + destruct Hmax as [[-> ->]|H]; auto.
    + destruct Hmin as [[-> ->]|H]; auto.
  - cbn [analyze_first_pass] in E.
    apply IH with (done := done ++ [p]) in E.
    + rewrite <- app_assoc in E. exact E.
    + right. destruct Hmax as [[-> ->]|(pre & m & mid & -> & -> & Fp & Fm)].
      * exists [], p, []. simpl. auto.
      * cbn [app]. rewrite Z.gtb_ltb.
        destruct (Z.ltb_spec (quantity m) (quantity p)) as [L|L].
        -- exists (pre ++ m :: mid), p, []. repeat split; auto.
           apply Forall_app. split.
           ++ eapply Forall_impl; [|exact Fp]. simpl. intros; lia.
           ++ constructor; [exact L|].
              eapply Forall_impl; [|exact Fm]. simpl. intros; lia.
        -- exists pre, m, (mid ++ [p]). repeat split; auto.
           ++ now rewrite <- app_assoc.
           ++ now rewrite <- app_assoc.
           ++ apply Forall_app. split; auto.
    + right. destruct Hmin as [[-> ->]|(pre & m & mid & -> & -> & Fp & Fm)].
      * exists [], p, []. simpl. auto.
      * cbn [app].
        destruct (Z.ltb_spec (quantity p) (quantity m)) as [L|L].
        -- exists (pre ++ m :: mid), p, []. repeat split; auto.
           apply Forall_app. split.
           ++ eapply Forall_impl; [|exact Fp]. simpl. intros; lia.
           ++ constructor; [exact L|].
              eapply Forall_impl; [|exact Fm]. simpl. intros; lia.
        -- exists pre, m, (mid ++ [p]). repeat split; auto.
           ++ now rewrite <- app_assoc.
           ++ now rewrite <- app_assoc.
           ++ apply Forall_app. split; auto.
Qed.

(** The second loop puts every qualifying product in front of the ones
    collected before it. *)
Lemma second_pass_lists (avg : double) (current : ProductPtr) :
  forall low high,
    analyze_second_pass current avg low high
    = (rev (filter (is_low avg) current) ++ low,
       rev (filter (is_high avg) current) ++ high).
Proof.
  induction current as [|p next IH]; intros low high; [reflexivity|].
  cbn [analyze_second_pass filter].
  change (double_lt (double_of_int (quantity p)) avg) with (is_low avg p).
  change (double_lt avg (double_of_int (quantity p))) with (is_high avg p).
  destruct (is_low avg p) eqn:L.
  - rewrite (double_lt_asym _ _ L : is_high avg p = false), IH.
    cbn [rev]. now rewrite <- app_assoc.
  - destruct (is_high avg p) eqn:H; rewrite IH; cbn [rev];
      now rewrite <- ?app_assoc.
Qed.

(** Comparing a quantity with the average, without division. *)
Lemma below_average_iff (l : list Product) (q : Z) :
  l <> [] ->
  (Qlt (inject_Z q) (exact_average l)
   <-> q * Z.of_nat (List.length l) < sum_quantities l)
  /\ (Qlt (exact_average l) (inject_Z q)
      <-> sum_quantities l < q * Z.of_nat (List.length l)).
Proof.
  intros Hne. destruct l as [|p l]; [contradiction|].
  unfold exact_average. generalize (sum_quantities (p :: l)). intros s.
  rewrite length_cons, Nat2Z.inj_succ, <- Zpos_P_of_succ_nat.
  generalize (Pos.of_succ_nat (List.length l)). intros n.
  unfold Qlt, Qdiv, Qmult, Qinv, inject_Z. simpl.
  rewrite !Z.mul_1_r. tauto.
Qed.

End StockAnalysis.

Section AnalysisClaims.

Lemma max_upto_first (head ptr : ProductPtr) :
  max_upto head [] ptr -> first_max head ptr.
Proof.
  intros (pre & p & mid & H1 & H2 & H3 & H4). rewrite app_nil_r in H2.
  exists pre, p, mid. auto.
Qed.

Lemma min_upto_first (head ptr : ProductPtr) :
  min_upto head [] ptr -> first_min head ptr.
Proof.
  intros (pre & p & mid & H1 & H2 & H3 & H4). rewrite app_nil_r in H2.
  exists pre, p, mid. auto.
Qed.

(** The result record, field by field, in terms of the two loops. *)
Lemma analyzeProducts_fields (head : ProductPtr) :
  forall count total maxS minS,
    analyze_first_pass head 0 0 [] [] = (count, total, maxS, minS) ->
    analyzeProducts head
    = {| lowStockProducts :=
           rev (filter (is_low (double_div total count)) head);
         highStockProducts :=
           rev (filter (is_high (double_div total count)) head);
         maxStockProduct := maxS;
         minStockProduct := minS;
         totalQuantity := total;
         averageQuantity := double_div total count |}.
Proof.
  intros count total maxS minS E. unfold analyzeProducts.
  rewrite E, second_pass_lists. now rewrite !app_nil_r.
Qed.

(** C8 (as amended).  The low-stock and high-stock lists hold the
    qualifying products in the reverse of the order in which the list is
    traversed: each product found is put in front of the ones found
    before it. *)
Theorem analyzeProducts_lists_reversed (head : ProductPtr) :
  lowStockProducts (analyzeProducts head)
  = rev (filter (is_low (averageQuantity (analyzeProducts head))) head)
  /\ highStockProducts (analyzeProducts head)
     = rev (filter (is_high (averageQuantity (analyzeProducts head))) head).
Proof.
  destruct (analyze_first_pass head 0 0 [] []) as [[[count total] maxS] minS]
    eqn:E.
  rewrite (analyzeProducts_fields head _ _ _ _ E). simpl. auto.
Qed.

(** C8, the claim as stated fails: with the hammer (10), the nail (100)
    and the screwdriver (5) inserted in this order, the list is traversed
    as 3, 2, 1; products 3 and 1 are below the average and are met in the
    order 3, 1, but the low-stock list is 1, 3. *)
Lemma analyzeProducts_low_list_not_in_traversal_order :
  let head :=
    insertProduct
      (insertProduct (insertProduct [] 1 "Hammer" 10) 2 "Nail" 100)
      3 "Screwdriver" 5 in
  let r := analyzeProducts head in
  map productId head = [3; 2; 1]
  /\ map productId (filter (is_low (averageQuantity r)) head) = [3; 1]
  /\ map productId (lowStockProducts r) = [1; 3]
  /\ lowStockProducts r <> filter (is_low (averageQuantity r)) head.
Proof.
  repeat split; try reflexivity.
  intros H. apply (f_equal (map productId)) in H. discriminate H.
Qed.

End AnalysisClaims.

(** ** The claims at the scenario of the specification *)

(** C9 on a list of two products: product 1 is set to 0, and looking for
    product 7 changes nothing. *)
Lemma updateProduct_sets_first_match_witness :
  let nail := mkProduct 2 "Nail" 100 "Nail" in
  let hammer := mkProduct 1 "Hammer" 10 "Hammer" in
  updateProduct (Node Null "Tools" [nail; hammer] Null) 1 0
  = (Node Null "Tools" [nail; set_quantity hammer 0] Null, [LnUpdated 0])
  /\ updateProduct (Node Null "Tools" [nail; hammer] Null) 7 0
     = (Node Null "Tools" [nail; hammer] Null, []).
Proof.
  intros nail hammer. split.
  - apply (proj1 (proj2 (updateProduct_sets_first_match
                           "Tools" [nail; hammer] 1 0)) [nail] hammer []).
    + reflexivity.
    + reflexivity.
    + repeat constructor. simpl. lia.
  - apply (proj1 (updateProduct_sets_first_match "Tools" [nail; hammer] 7 0)).
    reflexivity.
Defined.

(** C3 on the same list: decreasing product 1 (quantity 10) by 4 leaves 6,
    decreasing it by 15 is refused, and no quantity becomes negative. *)
Lemma deleteProduct_decreases_first_match_witness :
  let nail := mkProduct 2 "Nail" 100 "Nail" in
  let hammer := mkProduct 1 "Hammer" 10 "Hammer" in
  deleteProduct (Node Null "Tools" [nail; hammer] Null) 1 4
  = (Node Null "Tools" [nail; set_quantity hammer (CInt.sub 10 4)] Null,
     [LnDecreased 4 (CInt.sub 10 4)])
  /\ deleteProduct (Node Null "Tools" [nail; hammer] Null) 1 15
     = (Node Null "Tools" [nail; hammer] Null, [LnNotEnough 15 10])
  /\ Forall (fun x => 0 <= quantity x)
       (root_products
          (fst (deleteProduct (Node Null "Tools" [nail; hammer] Null) 1 4))).
Proof.
  intros nail hammer. split; [|split].
  - apply (proj1 (proj1 (proj2 (deleteProduct_decreases_first_match
                                  "Tools" [nail; hammer] 1 4))
                    [nail] hammer [] eq_refl eq_refl
                    ltac:(repeat constructor; simpl; lia))).
    simpl. lia.
  - apply (proj2 (proj1 (proj2 (deleteProduct_decreases_first_match
                                  "Tools" [nail; hammer] 1 15))
                    [nail] hammer [] eq_refl eq_refl
                    ltac:(repeat constructor; simpl; lia))).
    simpl. lia.
  - apply (proj2 (proj2 (deleteProduct_decreases_first_match
                           "Tools" [nail; hammer] 1 4)));
      repeat constructor; unfold CInt.max_int; simpl; lia.
Defined.

(* ===================================================================== *)
(** * Further properties of the category index *)
(* ===================================================================== *)

Section IndexLookup.

Lemma products_of_eq l c ps r : products_of (Node l c ps r) c = ps.
Proof. unfold products_of. simpl. now rewrite strcmp_refl. Qed.

Lemma products_of_lt l c ps r x :
  str_lt x c -> products_of (Node l c ps r) x = products_of l x.
Proof.
  intros L. unfold products_of. simpl.
  rewrite (strcmp_neq _ _ (str_lt_neq _ _ L)).
  now rewrite (proj2 (strcmp_lt x c) L).
Qed.

Lemma products_of_gt l c ps r x :
  str_lt c x -> products_of (Node l c ps r) x = products_of r x.
Proof.
  intros G. unfold products_of. simpl.
  destruct (strcmp_cases x c) as [(L & _)|[(_ & E & _)|(-> & _)]].
  - exfalso. exact (str_lt_asym _ _ L G).
  - rewrite strcmp_neq, E; [reflexivity|].
    intros ->. exact (str_lt_irrefl _ G).
  - exfalso. exact (str_lt_irrefl _ G).
Qed.

(** [findCategory] never returns a node with another name. *)
Lemma find_name t k l c ps r : findCategory t k = Node l c ps r -> c = k.
Proof.
  induction t as [|tl IHl tc tps tr IHr]; simpl; [discriminate|].
  destruct (strcmp k tc =? 0) eqn:E.
  - intros [= _ <- _ _]. symmetry. now apply strcmp_eq.
  - destruct (strcmp k tc <? 0); auto.
Qed.

Lemma insert_find_self t k :
  exists l ps r, findCategory (insertCategory t k) k = Node l k ps r.
Proof.
  induction t as [|l IHl c ps r IHr]; simpl.
  - unfold strcpy. rewrite strcmp_refl. simpl. eauto.
  - destruct (strcmp_cases k c) as [(L & E)|[(G & E & E')|(-> & E & E')]];
      rewrite E, ?E'; simpl.
    + now rewrite (strcmp_neq _ _ (str_lt_neq _ _ L)), E.
    + rewrite strcmp_neq, E; [exact IHr|].
      intros ->. exact (str_lt_irrefl _ G).
    + rewrite strcmp_refl. simpl. eauto.
Qed.

Lemma insert_products_of t k x :
  products_of (insertCategory t k) x = products_of t x.
Proof.
  induction t as [|l IHl c ps r IHr]; simpl.
  - unfold products_of, strcpy. simpl.
    destruct (strcmp x k =? 0); [reflexivity|].
    now destruct (strcmp x k <? 0).
  - destruct (strcmp_cases k c) as [(_ & E)|[(_ & E & E')|(-> & E & E')]];
      rewrite E, ?E'; [| |reflexivity].
    + unfold products_of in *. simpl.
      destruct (strcmp x c =? 0); [reflexivity|].
      destruct (strcmp x c <? 0); [exact IHl|reflexivity].
    + unfold products_of in *. simpl.
      destruct (strcmp x c =? 0); [reflexivity|].
      destruct (strcmp x c <? 0); [reflexivity|exact IHr].
Qed.

Lemma insert_find_other t k x :
  x <> k ->
  (findCategory (insertCategory t k) x = Null <-> findCategory t x = Null).
Proof.
  intros N. induction t as [|l IHl c ps r IHr]; simpl.
  - unfold strcpy. rewrite (strcmp_neq _ _ N).
    destruct (strcmp x k <? 0); simpl; tauto.
  - destruct (strcmp_cases k c) as [(_ & E)|[(_ & E & E')|(-> & E & E')]];
      rewrite E, ?E'; [| |tauto]; simpl;
      destruct (strcmp x c =? 0); try (split; discriminate);
      destruct (strcmp x c <? 0); tauto.
Qed.

Lemma products_absent t x :
  BST t -> ~ In x (inorder t) -> products_of t x = [].
Proof.
  intros B N. unfold products_of. now rewrite (find_absent t x B N).
Qed.

End IndexLookup.

(** X1.  A category is found right after it has been inserted, under its
    own name; the insertion changes the product list of no category (a new
    category starts with the empty list) and neither hides nor reveals any
    other name.  This holds for every tree, ordered or not. *)
Theorem insertCategory_then_find (t : CategoryNode) (k : string) :
  (exists l ps r, findCategory (insertCategory t k) k = Node l k ps r)
  /\ (forall x, products_of (insertCategory t k) x = products_of t x)
  /\ (forall x, x <> k ->
        (findCategory (insertCategory t k) x = Null
         <-> findCategory t x = Null)).
Proof.
  split; [apply insert_find_self|]. split.
  - intros x. apply insert_products_of.
  - intros x. apply insert_find_other.
Qed.

(** X2.  [insertCategory] keeps the ordering invariant of any ordered
    index, and the names it lists afterwards are the old ones and the
    inserted one. *)
Theorem insertCategory_keeps_order (t : CategoryNode) (k : string) :
  BST t ->
  BST (insertCategory t k)
  /\ (forall x, In x (inorder (insertCategory t k))
                <-> x = k \/ In x (inorder t)).
Proof.
  intros B. split; [now apply insert_BST|].
  intros x. apply insert_inorder_in.
Qed.

(** X3.  On an ordered index [findCategory] finds exactly the names that
    the display lists, and the node it returns carries the name asked
    for. *)
Theorem findCategory_complete (t : CategoryNode) (k : string) :
  BST t ->
  (In k (inorder t) <-> exists l ps r, findCategory t k = Node l k ps r).
Proof.
  intros B. rewrite <- (find_in t k B). split.
  - intros N. destruct (findCategory t k) as [|l c ps r] eqn:E;
      [contradiction|].
    rewrite (find_name _ _ _ _ _ _ E). eauto.
  - intros (l & ps & r & E). rewrite E. discriminate.
Qed.

(** X5.  A category that is deleted and inserted again is listed again and
    owns no product. *)
Theorem deleteCategory_then_insert (t : CategoryNode) (k : string) :
  BST t ->
  BST (insertCategory (deleteCategory t k) k)
  /\ In k (inorder (insertCategory (deleteCategory t k) k))
  /\ products_of (insertCategory (deleteCategory t k) k) k = [].
Proof.
  intros B. pose proof (delete_BST t k B) as B'.
  split; [now apply insert_BST|]. split.
  - apply insert_inorder_in. now left.
  - rewrite insert_products_of. apply products_absent; [exact B'|].
    rewrite (delete_inorder_in t k k B). tauto.
Qed.

Section DeletionAndProducts.

Lemma successor_in t k m :
  successor_of t k = Some m -> In m (inorder t).
Proof.
  induction t as [|l IHl c ps r IHr]; simpl; [discriminate|].
  rewrite inorder_node.
  destruct (strcmp k c <? 0); [intros H; apply in_or_app; auto|].
  destruct (strcmp k c >? 0);
    [intros H; apply in_or_app; right; right; auto|].
  destruct l as [|ll lc lps lr]; [discriminate|].
  destruct r as [|rl rc rps rr]; [discriminate|].
  intros [= <-]. apply in_or_app. right. right. apply leftmost_in.
Qed.

(** The least name of a subtree sits at a node without left child. *)
Lemma successor_leftmost l c ps r d :
  BST (Node l c ps r) ->
  successor_of (Node l c ps r) (leftmost_category (Node l c ps r) d) = None.
Proof.
  revert c ps r. induction l as [|ll IHll lc lps lr _]; intros c ps r B.
  - simpl. now rewrite strcmp_refl.
  - change (leftmost_category (Node (Node ll lc lps lr) c ps r) d)
      with (leftmost_category (Node ll lc lps lr) d).
    set (m := leftmost_category (Node ll lc lps lr) d).
    destruct B as (Hl & _ & Bl & _). rewrite tree_all_inorder in Hl.
    assert (L : str_lt m c) by (apply Hl, leftmost_in).
    change (successor_of (Node (Node ll lc lps lr) c ps r) m)
      with (if strcmp m c <? 0 then successor_of (Node ll lc lps lr) m
            else if strcmp m c >? 0 then successor_of r m
                 else match r with
                      | Null => None
                      | Node _ _ _ _ => Some (leftmost_category r c)
                      end).
    rewrite (proj2 (strcmp_lt m c) L). now apply IHll.
Qed.

Lemma delete_products t :
  forall k, BST t ->
  match successor_of t k with
  | None =>
      forall x, x <> k ->
                products_of (deleteCategory t k) x = products_of t x
  | Some m =>
      products_of (deleteCategory t k) m = products_of t k
      /\ (forall x, x <> k -> x <> m ->
                    products_of (deleteCategory t k) x = products_of t x)
  end.
Proof.
  induction t as [|l IHl c ps r IHr]; intros k B; [simpl; auto|].
  pose proof B as (Hl & Hr & Bl & Br).
  rewrite tree_all_inorder in Hl, Hr.
  assert (Side : forall u v x,
             (str_lt x c -> u = products_of l x) ->
             (str_lt c x -> v = products_of r x) ->
             forall l' r',
               products_of l' x = u -> products_of r' x = v ->
               products_of (Node l' c ps r') x
               = products_of (Node l c ps r) x).
  { intros u v x Hu Hv l' r' El Er.
    destruct (strcmp_cases x c) as [(L & _)|[(G & _)|(-> & _)]].
    - rewrite !products_of_lt by exact L. rewrite El. auto.
    - rewrite !products_of_gt by exact G. rewrite Er. auto.
    - now rewrite !products_of_eq. }
  simpl.
  destruct (strcmp_cases k c) as [(L & ->)|[(G & -> & ->)|(-> & -> & ->)]].
  - specialize (IHl k Bl).
    destruct (successor_of l k) as [m|] eqn:S.
    + pose proof (Hl _ (successor_in _ _ _ S)) as Lm.
      destruct IHl as [Hm Hx]. split.
      * now rewrite !products_of_lt by assumption.
      * intros x N1 N2.
        apply (Side (products_of l x) (products_of r x)); auto.
    + intros x N.
      apply (Side (products_of l x) (products_of r x)); auto.
  - specialize (IHr k Br).
    destruct (successor_of r k) as [m|] eqn:S.
    + pose proof (Hr _ (successor_in _ _ _ S)) as Gm.
      destruct IHr as [Hm Hx]. split.
      * now rewrite !products_of_gt by assumption.
      * intros x N1 N2.
        apply (Side (products_of l x) (products_of r x)); auto.
    + intros x N.
      apply (Side (products_of l x) (products_of r x)); auto.
  - destruct l as [|ll lc lps lr].
    + intros x N.
      destruct (strcmp_cases x c) as [(L & _)|[(G & _)|(-> & _)]];
        [| |contradiction].
      * rewrite (products_of_lt _ c) by exact L.
        change (products_of Null x) with (@nil Product).
        apply products_absent; [exact Br|].
        intros H. exact (str_lt_asym _ _ L (Hr _ H)).
      * now rewrite (products_of_gt _ c) by exact G.
    + destruct r as [|rl rc rps rr].
      * intros x N.
        destruct (strcmp_cases x c) as [(L & _)|[(G & _)|(-> & _)]];
          [| |contradiction].
        -- now rewrite (products_of_lt _ c) by exact L.
        -- rewrite (products_of_gt _ c) by exact G.
           change (products_of Null x) with (@nil Product).
           apply products_absent; [exact Bl|].
           intros H. exact (str_lt_asym _ _ G (Hl _ H)).
      * set (L := Node ll lc lps lr) in *.
        set (R := Node rl rc rps rr) in *.
        set (m := leftmost_category R c). unfold strcpy.
        pose proof (leftmost_in rl rc rps rr c) as Hm. fold R m in Hm.
        pose proof (Hr _ Hm) as Gm.
        split; [now rewrite !products_of_eq|].
        intros x N1 N2.
        destruct (strcmp_cases x c) as [(Lx & _)|[(Gx & _)|(-> & _)]];
          [| |contradiction].
        -- rewrite (products_of_lt L c) by exact Lx.
           apply products_of_lt. now apply str_lt_trans with c.
        -- rewrite (products_of_gt L c) by exact Gx.
           destruct (strcmp_cases x m) as [(Lm & _)|[(Gxm & _)|(-> & _)]];
             [| |contradiction].
           ++ rewrite products_of_lt by exact Lm.
              rewrite (products_absent L x Bl),
                (products_absent R x Br); auto.
              ** intros H.
                 destruct (leftmost_least rl rc rps rr c x Br H) as [E|E].
                 --- now apply N2.
                 --- exact (str_lt_asym _ _ Lm E).
              ** intros H. exact (str_lt_asym _ _ Gx (Hl _ H)).
           ++ rewrite products_of_gt by exact Gxm.
              specialize (IHr m Br).
              pose proof (successor_leftmost rl rc rps rr c Br) as SL.
              fold R m in SL. rewrite SL in IHr.
              now apply IHr.
Qed.

End DeletionAndProducts.

(** X4.  What [deleteCategory] does to the product lists of an ordered
    index.  When the deleted name is absent or sits at a node with at most
    one child, every other category keeps its products.  When it sits at a
    node with two children, the least name [m] of the right subtree takes
    over the deleted category's products (its own are dropped), and every
    category other than the deleted one and [m] keeps its products. *)
Theorem deleteCategory_products (t : CategoryNode) (k : string) :
  BST t ->
  (successor_of t k = None ->
   forall x, x <> k -> products_of (deleteCategory t k) x = products_of t x)
  /\ (forall m, successor_of t k = Some m ->
        products_of (deleteCategory t k) m = products_of t k
        /\ (forall x, x <> k -> x <> m ->
              products_of (deleteCategory t k) x = products_of t x)).
Proof.
  intros B. pose proof (delete_products t k B) as H.
  split.
  - intros S. now rewrite S in H.
  - intros m S. now rewrite S in H.
Qed.

(* ===================================================================== *)
(** * Further properties of the product lists *)
(* ===================================================================== *)

Section AddingProducts.

Lemma assign_products_self t c h :
  findCategory t c <> Null -> products_of (assign_productsHead t c h) c = h.
Proof.
  induction t as [|l IHl c0 ps r IHr]; simpl; [contradiction|].
  destruct (strcmp c c0 =? 0) eqn:E.
  - intros _. unfold products_of. simpl. now rewrite E.
  - destruct (strcmp c c0 <? 0) eqn:E'; intros H;
      unfold products_of in *; simpl; rewrite E, E'; auto.
Qed.

Lemma assign_products_other t c h x :
  x <> c -> products_of (assign_productsHead t c h) x = products_of t x.
Proof.
  intros N. induction t as [|l IHl c0 ps r IHr]; simpl; [reflexivity|].
  destruct (strcmp c c0 =? 0) eqn:E.
  - apply strcmp_eq in E. subst c0.
    unfold products_of. simpl. now rewrite (strcmp_neq _ _ N).
  - destruct (strcmp c c0 <? 0) eqn:E'; unfold products_of in *; simpl;
      destruct (strcmp x c0 =? 0); try reflexivity;
      destruct (strcmp x c0 <? 0); auto.
Qed.

Lemma assign_inorder t c h :
  inorder (assign_productsHead t c h) = inorder t.
Proof.
  induction t as [|l IHl c0 ps r IHr]; simpl; [reflexivity|].
  destruct (strcmp c c0 =? 0); [now rewrite !inorder_node|].
  destruct (strcmp c c0 <? 0); rewrite !inorder_node; congruence.
Qed.

Lemma assign_BST t c h : BST t -> BST (assign_productsHead t c h).
Proof.
  induction t as [|l IHl c0 ps r IHr]; simpl; [trivial|].
  intros (Hl & Hr & Bl & Br).
  destruct (strcmp c c0 =? 0); [simpl; auto|].
  destruct (strcmp c c0 <? 0); simpl; repeat split; auto;
    apply tree_all_inorder; rewrite assign_inorder;
    now apply tree_all_inorder.
Qed.

End AddingProducts.

(** X6.  Menu choice 3.  When the category is not in the index, nothing
    changes.  When it is, the new product becomes the head of that
    category's list, in front of the products it already had.  In both
    cases every other category keeps its products, the display lists the
    same category names, and an ordered index stays ordered. *)
Theorem menu_add_product_effect (root : CategoryNode) (c : string)
  (id : Z) (nm : string) (q : Z) :
  (findCategory root c = Null -> menu_add_product root c id nm q = root)
  /\ (findCategory root c <> Null ->
      products_of (menu_add_product root c id nm q) c
      = insertProduct (products_of root c) id nm q)
  /\ (forall x, x <> c ->
        products_of (menu_add_product root c id nm q) x = products_of root x)
  /\ inorder (menu_add_product root c id nm q) = inorder root
  /\ (BST root -> BST (menu_add_product root c id nm q)).
Proof.
  unfold menu_add_product.
  destruct (findCategory root c) as [|fl fc fps fr] eqn:E.
  - repeat split; auto. intros H. contradiction.
  - split; [discriminate|]. split; [|split; [|split]].
    + intros _. rewrite assign_products_self by (rewrite E; discriminate).
      unfold products_of. now rewrite E.
    + intros x N. now apply assign_products_other.
    + apply assign_inorder.
    + apply assign_BST.
Qed.

(** X7.  Product IDs are not checked for duplicates, and the newest
    product hides the older ones: a search for the ID just inserted returns
    the new node, a search for any other ID is not affected, and an update
    of that ID on the category's list changes the new product only, leaving
    every older product, also one with the same ID, as it was. *)
Theorem insertProduct_shadows (c : string) (head : ProductPtr) (id : Z)
  (nm : string) (q0 q : Z) :
  findProduct (insertProduct head id nm q0) id = insertProduct head id nm q0
  /\ (forall id', id' <> id ->
        findProduct (insertProduct head id nm q0) id' = findProduct head id')
  /\ updateProduct (Node Null c (insertProduct head id nm q0) Null) id q
     = (Node Null c (insertProduct head id nm q) Null, [LnUpdated q]).
Proof.
  unfold insertProduct. split; [|split].
  - simpl. now rewrite Z.eqb_refl.
  - intros id' N. simpl.
    replace (id =? id') with false; [reflexivity|].
    symmetry. apply Z.eqb_neq. congruence.
  - exact (updateProduct_found c []
             {| productId := id; name := strcpy nm; quantity := q0;
                category := strcpy nm |} head id q eq_refl (Forall_nil _)).
Qed.

(* ===================================================================== *)
(** * Further properties of quantity update and decrease *)
(* ===================================================================== *)

Section IndexWideEffects.

Variable id : Z.

Lemma index_products_all (P : Product -> Prop) (t : CategoryNode) :
  index_products P t <-> Forall P (all_products t).
Proof.
  induction t as [|l IHl c ps r IHr]; simpl.
  - split; auto.
  - rewrite !Forall_app, IHl, IHr. tauto.
Qed.

Lemma forget_stored pre p rest v :
  productId p = id ->
  map (forget_quantity_of id) (pre ++ set_quantity p v :: rest)
  = map (forget_quantity_of id) (pre ++ p :: rest).
Proof.
  intros Hid. rewrite !map_app. simpl. f_equal. f_equal.
  unfold forget_quantity_of. simpl.
  apply Z.eqb_eq in Hid. now rewrite Hid.
Qed.

Lemma updateProduct_frame (t : CategoryNode) (v : Z) :
  index_map (forget_quantity_of id) (fst (updateProduct t id v))
  = index_map (forget_quantity_of id) t.
Proof.
  induction t as [|l IHl c ps r IHr]; [reflexivity|].
  cbn [updateProduct].
  destruct (updateProduct l id v) as [l' out_l].
  destruct (findProduct ps id) as [|p rest] eqn:E.
  - destruct (updateProduct r id v) as [r' out_r]. simpl in *.
    now rewrite IHl, IHr.
  - destruct (findProduct_found _ _ _ _ E) as (pre & -> & Hid & _).
    rewrite store_quantity_at. simpl in *.
    now rewrite IHl, (forget_stored pre p rest v Hid).
Qed.

Lemma deleteProduct_frame (t : CategoryNode) (v : Z) :
  index_map (forget_quantity_of id) (fst (deleteProduct t id v))
  = index_map (forget_quantity_of id) t.
Proof.
  induction t as [|l IHl c ps r IHr]; [reflexivity|].
  cbn [deleteProduct].
  destruct (deleteProduct l id v) as [l' out_l].
  destruct (findProduct ps id) as [|p rest] eqn:E.
  - destruct (deleteProduct r id v) as [r' out_r]. simpl in *.
    now rewrite IHl, IHr.
  - destruct (findProduct_found _ _ _ _ E) as (pre & -> & Hid & _).
    destruct (quantity p >=? v); simpl in *.
    + change (firstn (List.length (pre ++ p :: rest)
                      - S (List.length rest)) (pre ++ p :: rest)
              ++ set_quantity p (CInt.sub (quantity p) v) :: rest)
        with (store_quantity (pre ++ p :: rest) (p :: rest)
                (CInt.sub (quantity p) v)).
      rewrite store_quantity_at.
      now rewrite IHl, (forget_stored pre p rest _ Hid).
    + now rewrite IHl.
Qed.

Lemma index_map_inorder (f : Product -> Product) (t : CategoryNode) :
  inorder (index_map f t) = inorder t.
Proof.
  induction t as [|l IHl c ps r IHr]; [reflexivity|].
  simpl. rewrite !inorder_node. congruence.
Qed.

Lemma index_map_ids (t : CategoryNode) :
  map productId (all_products (index_map (forget_quantity_of id) t))
  = map productId (all_products t).
Proof.
  induction t as [|l IHl c ps r IHr]; [reflexivity|].
  simpl. rewrite !map_app, IHl, IHr. f_equal. f_equal.
  rewrite map_map. apply map_ext. intros p.
  unfold forget_quantity_of. now destruct (productId p =? id).
Qed.

End IndexWideEffects.

(** X8.  [updateProduct] and [deleteProduct] touch nothing but the
    quantities of products carrying the ID: once those quantities are
    forgotten, the index after the call is the index before it.  So no
    category and no product is added, removed, renamed or moved, products
    with another ID keep their quantity, the display lists the same
    category names and the same product IDs in the same order. *)
Theorem quantity_updates_frame (t : CategoryNode) (id v : Z) :
  (index_map (forget_quantity_of id) (fst (updateProduct t id v))
   = index_map (forget_quantity_of id) t
   /\ inorder (fst (updateProduct t id v)) = inorder t
   /\ map productId (all_products (fst (updateProduct t id v)))
      = map productId (all_products t))
  /\ (index_map (forget_quantity_of id) (fst (deleteProduct t id v))
      = index_map (forget_quantity_of id) t
      /\ inorder (fst (deleteProduct t id v)) = inorder t
      /\ map productId (all_products (fst (deleteProduct t id v)))
         = map productId (all_products t)).
Proof.
  pose proof (updateProduct_frame id t v) as U.
  pose proof (deleteProduct_frame id t v) as D.
  split; (split; [assumption|split]).
  - rewrite <- (index_map_inorder (forget_quantity_of id)), U.
    apply index_map_inorder.
  - rewrite <- (index_map_ids id), U. apply index_map_ids.
  - rewrite <- (index_map_inorder (forget_quantity_of id)), D.
    apply index_map_inorder.
  - rewrite <- (index_map_ids id), D. apply index_map_ids.
Qed.

Section Reporting.

Variable id : Z.

Lemma updateProduct_lines (t : CategoryNode) (q : Z) :
  Forall (fun ln => ln = LnUpdated q) (snd (updateProduct t id q)).
Proof.
  induction t as [|l IHl c ps r IHr]; [constructor|].
  cbn [updateProduct].
  destruct (updateProduct l id q) as [l' out_l].
  destruct (findProduct ps id) as [|p rest].
  - destruct (updateProduct r id q) as [r' out_r]. simpl in *.
    apply Forall_app. auto.
  - simpl in *. apply Forall_app. auto.
Qed.

Lemma updateProduct_silent (t : CategoryNode) (q : Z) :
  snd (updateProduct t id q) = [] ->
  index_products (fun x => productId x <> id) t.
Proof.
  induction t as [|l IHl c ps r IHr]; [intros _; exact I|].
  cbn [updateProduct].
  destruct (updateProduct l id q) as [l' out_l].
  destruct (findProduct ps id) as [|p rest] eqn:E.
  - destruct (updateProduct r id q) as [r' out_r]. simpl in *.
    intros H. apply app_eq_nil in H. destruct H as [-> ->].
    repeat split; auto. now apply findProduct_none.
  - simpl. intros H. apply app_eq_nil in H. destruct H as [_ H].
    discriminate H.
Qed.

Lemma deleteProduct_silent (t : CategoryNode) (amount : Z) :
  snd (deleteProduct t id amount) = [] ->
  index_products (fun x => productId x <> id) t.
Proof.
  induction t as [|l IHl c ps r IHr]; [intros _; exact I|].
  cbn [deleteProduct].
  destruct (deleteProduct l id amount) as [l' out_l].
  destruct (findProduct ps id) as [|p rest] eqn:E.
  - destruct (deleteProduct r id amount) as [r' out_r]. simpl in *.
    intros H. apply app_eq_nil in H. destruct H as [-> ->].
    repeat split; auto. now apply findProduct_none.
  - destruct (quantity p >=? amount); simpl; intros H;
      apply app_eq_nil in H; destruct H as [_ H]; discriminate H.
Qed.

End Reporting.

(** X9.  [updateProduct] is silent exactly when no product of any category
    carries the ID, and then it returns the index as it is; every line it
    prints is the success line with the new quantity. *)
Theorem updateProduct_silent_iff_absent (t : CategoryNode) (id q : Z) :
  (snd (updateProduct t id q) = []
   <-> index_products (fun x => productId x <> id) t)
  /\ (snd (updateProduct t id q) = [] -> fst (updateProduct t id q) = t)
  /\ Forall (fun ln => ln = LnUpdated q) (snd (updateProduct t id q)).
Proof.
  split; [split|split].
  - apply updateProduct_silent.
  - intros H. now rewrite (updateProduct_absent_everywhere id t q H).
  - intros H. apply updateProduct_silent in H.
    now rewrite (updateProduct_absent_everywhere id t q H).
  - apply updateProduct_lines.
Qed.

(** X10.  [deleteProduct] is silent exactly when no product of any
    category carries the ID, and then it returns the index as it is: any
    product found, with enough stock or not, produces a line. *)
Theorem deleteProduct_silent_iff_absent (t : CategoryNode) (id amount : Z) :
  (snd (deleteProduct t id amount) = []
   <-> index_products (fun x => productId x <> id) t)
  /\ (snd (deleteProduct t id amount) = [] ->
      fst (deleteProduct t id amount) = t).
Proof.
  split; [split|].
  - apply deleteProduct_silent.
  - intros H. now rewrite (deleteProduct_absent_everywhere id t amount H).
  - intros H. apply deleteProduct_silent in H.
    now rewrite (deleteProduct_absent_everywhere id t amount H).
Qed.

(** X11.  Stock levels stay stock levels: when every quantity of the index
    lies between 0 and [INT_MAX] and the amount is not negative, every
    quantity still lies between 0 and [INT_MAX] after [deleteProduct], in
    whatever categories the decrease took effect. *)
Theorem deleteProduct_keeps_stock_levels (t : CategoryNode)
  (id amount : Z) :
  0 <= amount ->
  index_products (fun x => 0 <= quantity x <= CInt.max_int) t ->
  index_products (fun x => 0 <= quantity x <= CInt.max_int)
    (fst (deleteProduct t id amount)).
Proof.
  intros Ha. induction t as [|l IHl c ps r IHr]; [intros _; exact I|].
  intros (Hl & Hps & Hr). cbn [deleteProduct].
  specialize (IHl Hl). specialize (IHr Hr).
  destruct (deleteProduct l id amount) as [l' out_l].
  destruct (findProduct ps id) as [|p rest] eqn:E.
  - destruct (deleteProduct r id amount) as [r' out_r]. simpl in *. auto.
  - destruct (findProduct_found _ _ _ _ E) as (pre & -> & _ & _).
    destruct (quantity p >=? amount) eqn:G; simpl in *; auto.
    split; [exact IHl|]. split; [|exact Hr].
    change (Forall (fun x => 0 <= quantity x <= CInt.max_int)
              (store_quantity (pre ++ p :: rest) (p :: rest)
                 (CInt.sub (quantity p) amount))).
    rewrite store_quantity_at.
    apply Forall_app in Hps. destruct Hps as [Hpre Hp].
    inversion Hp as [|? ? Hp0 Hrest]; subst.
    apply Forall_app. split; [exact Hpre|].
    constructor; [|exact Hrest].
    simpl. unfold CInt.sub. apply Z.geb_le in G.
    rewrite wrap_in_range; [lia|].
    unfold CInt.in_range, CInt.min_int. unfold CInt.max_int in *. lia.
Qed.

Lemma deleteProduct_keeps_stock_levels_witness :
  let root :=
    Node (Node Null "Food" [mkProduct 1 "Rice" 3 "Rice"] Null)
         "Tools" [mkProduct 1 "Hammer" 10 "Hammer"] Null in
  (0 <= 4
   /\ index_products (fun x => 0 <= quantity x <= CInt.max_int) root)
  /\ index_products (fun x => 0 <= quantity x <= CInt.max_int)
       (fst (deleteProduct root 1 4)).
Proof.
  intros root.
  assert (H : index_products (fun x => 0 <= quantity x <= CInt.max_int) root)
    by (unfold CInt.max_int; simpl; repeat split; repeat constructor;
        simpl; lia).
  split; [split; [lia|exact H]|].
  apply (deleteProduct_keeps_stock_levels root 1 4); [lia|exact H].
Defined.

Section FirstInDisplayOrder.

Variable id : Z.

Lemma findProduct_app (a b : ProductPtr) :
  findProduct (a ++ b) id
  = match findProduct a id with
    | [] => findProduct b id
    | p :: rest => p :: rest ++ b
    end.
Proof.
  induction a as [|h a IH]; simpl; [reflexivity|].
  now destruct (productId h =? id).
Qed.

Lemma absent_in_subtree (t : CategoryNode) :
  findProduct (all_products t) id = [] ->
  index_products (fun x => productId x <> id) t.
Proof.
  intros H. apply index_products_all. now apply findProduct_none.
Qed.

Lemma updateProduct_first (t : CategoryNode) (q : Z) :
  forall p rest,
    findProduct (all_products t) id = p :: rest ->
    exists rest',
      findProduct (all_products (fst (updateProduct t id q))) id
      = set_quantity p q :: rest'.
Proof.
  induction t as [|l IHl c ps r IHr]; intros p rest H; [discriminate H|].
  cbn [all_products] in H. rewrite findProduct_app in H.
  cbn [updateProduct].
  destruct (findProduct (all_products l) id) as [|p0 rest0] eqn:El.
  - rewrite (updateProduct_absent_everywhere id l q (absent_in_subtree l El)).
    rewrite findProduct_app in H.
    destruct (findProduct ps id) as [|p1 rest1] eqn:Eps.
    + destruct (IHr p rest H) as (rest' & E).
      destruct (updateProduct r id q) as [r' out_r]. simpl in *.
      exists rest'.
      now rewrite findProduct_app, El, findProduct_app, Eps.
    + injection H as <- _.
      destruct (findProduct_found _ _ _ _ Eps) as (pre & -> & Hid & Hpre).
      rewrite store_quantity_at. simpl.
      exists (rest1 ++ all_products r).
      rewrite findProduct_app, El, findProduct_app.
      now rewrite (findProduct_first pre (set_quantity p1 q) rest1 id Hid Hpre).
  - injection H as <- _.
    destruct (IHl p0 rest0 eq_refl) as (rest' & E).
    destruct (updateProduct l id q) as [l' out_l]. simpl in E.
    destruct (findProduct ps id) as [|p1 rest1].
    + destruct (updateProduct r id q) as [r' out_r]. simpl.
      rewrite findProduct_app, E. eauto.
    + simpl. rewrite findProduct_app, E. eauto.
Qed.

Lemma deleteProduct_first (t : CategoryNode) (amount : Z) :
  forall p rest,
    findProduct (all_products t) id = p :: rest ->
    exists rest',
      findProduct (all_products (fst (deleteProduct t id amount))) id
      = (if quantity p >=? amount
         then set_quantity p (CInt.sub (quantity p) amount)
         else p) :: rest'.
Proof.
  induction t as [|l IHl c ps r IHr]; intros p rest H; [discriminate H|].
  cbn [all_products] in H. rewrite findProduct_app in H.
  cbn [deleteProduct].
  destruct (findProduct (all_products l) id) as [|p0 rest0] eqn:El.
  - rewrite (deleteProduct_absent_everywhere id l amount
               (absent_in_subtree l El)).
    rewrite findProduct_app in H.
    destruct (findProduct ps id) as [|p1 rest1] eqn:Eps.
    + destruct (IHr p rest H) as (rest' & E).
      destruct (deleteProduct r id amount) as [r' out_r]. simpl in *.
      exists rest'.
      now rewrite findProduct_app, El, findProduct_app, Eps.
    + injection H as <- _.
      destruct (findProduct_found _ _ _ _ Eps) as (pre & -> & Hid & Hpre).
      exists (rest1 ++ all_products r).
      destruct (quantity p1 >=? amount); simpl.
      * change (firstn (List.length (pre ++ p1 :: rest1)
                        - S (List.length rest1)) (pre ++ p1 :: rest1)
                ++ set_quantity p1 (CInt.sub (quantity p1) amount) :: rest1)
          with (store_quantity (pre ++ p1 :: rest1) (p1 :: rest1)
                  (CInt.sub (quantity p1) amount)).
        rewrite store_quantity_at.
        rewrite findProduct_app, El, findProduct_app.
        now rewrite (findProduct_first pre (set_quantity p1 _) rest1 id
                       Hid Hpre).
      * rewrite findProduct_app, El, findProduct_app.
        now rewrite (findProduct_first pre p1 rest1 id Hid Hpre).
  - injection H as <- _.
    destruct (IHl p0 rest0 eq_refl) as (rest' & E).
    destruct (deleteProduct l id amount) as [l' out_l]. simpl in E.
    destruct (findProduct ps id) as [|p1 rest1].
    + destruct (deleteProduct r id amount) as [r' out_r]. simpl.
      rewrite findProduct_app, E. eauto.
    + destruct (quantity p1 >=? amount); simpl;
        rewrite findProduct_app, E; eauto.
Qed.

End FirstInDisplayOrder.

(** X12.  Of all the products of the index that carry the ID, the first in
    display order (in-order over the categories, front to back in each
    list) is always reached by [updateProduct]: after the call it is still
    the first one with that ID and its quantity is the new quantity. *)
Theorem updateProduct_reaches_first_displayed (t : CategoryNode)
  (id q : Z) (p : Product) (rest : ProductPtr) :
  findProduct (all_products t) id = p :: rest ->
  exists rest',
    findProduct (all_products (fst (updateProduct t id q))) id
    = set_quantity p q :: rest'.
Proof. apply updateProduct_first. Qed.

Lemma updateProduct_reaches_first_displayed_witness :
  let root :=
    Node (Node Null "Food" [mkProduct 1 "Rice" 3 "Rice"] Null)
         "Tools" [mkProduct 1 "Hammer" 10 "Hammer"] Null in
  let rice := mkProduct 1 "Rice" 3 "Rice" in
  findProduct (all_products root) 1 = [rice; mkProduct 1 "Hammer" 10 "Hammer"]
  /\ exists rest',
       findProduct (all_products (fst (updateProduct root 1 50))) 1
       = set_quantity rice 50 :: rest'.
Proof.
  intros root rice. split; [reflexivity|].
  exact (updateProduct_reaches_first_displayed root 1 50 rice _ eq_refl).
Defined.

(** X13.  The same for [deleteProduct]: the first product in display order
    that carries the ID is always reached; its quantity becomes
    quantity - amount when quantity >= amount and stays as it was
    otherwise. *)
Theorem deleteProduct_reaches_first_displayed (t : CategoryNode)
  (id amount : Z) (p : Product) (rest : ProductPtr) :
  findProduct (all_products t) id = p :: rest ->
  exists rest',
    findProduct (all_products (fst (deleteProduct t id amount))) id
    = (if quantity p >=? amount
       then set_quantity p (CInt.sub (quantity p) amount)
       else p) :: rest'.
Proof. apply deleteProduct_first. Qed.

Lemma deleteProduct_reaches_first_displayed_witness :
  let root :=
    Node (Node Null "Food" [mkProduct 1 "Rice" 3 "Rice"] Null)
         "Tools" [mkProduct 1 "Hammer" 10 "Hammer"] Null in
  let rice := mkProduct 1 "Rice" 3 "Rice" in
  findProduct (all_products root) 1 = [rice; mkProduct 1 "Hammer" 10 "Hammer"]
  /\ exists rest',
       findProduct (all_products (fst (deleteProduct root 1 2))) 1
       = set_quantity rice (CInt.sub 3 2) :: rest'.
Proof.
  intros root rice. split; [reflexivity|].
  exact (deleteProduct_reaches_first_displayed root 1 2 rice _ eq_refl).
Defined.

(* ===================================================================== *)
(** * Further properties of the display and of the reports *)
(* ===================================================================== *)

Section DisplayAndLookup.

Lemma flat_map_ext_in {A B : Type} (f g : A -> list B) (l : list A) :
  (forall x, In x l -> f x = g x) -> flat_map f l = flat_map g l.
Proof.
  induction l as [|a l IH]; intros H; simpl; [reflexivity|].
  rewrite (H a (or_introl eq_refl)), IH; [reflexivity|].
  intros x Hx. apply H. now right.
Qed.

Lemma by_lookup_node {B : Type} (f : string -> ProductPtr -> list B)
  l c ps r :
  BST (Node l c ps r) ->
  flat_map (fun x => f x (products_of (Node l c ps r) x))
    (inorder (Node l c ps r))
  = flat_map (fun x => f x (products_of l x)) (inorder l)
    ++ f c ps ++ flat_map (fun x => f x (products_of r x)) (inorder r).
Proof.
  intros (Hl & Hr & _ & _). rewrite tree_all_inorder in Hl, Hr.
  rewrite inorder_node, flat_map_app. simpl. rewrite products_of_eq.
  f_equal; [|f_equal]; apply flat_map_ext_in; intros x Hx.
  - now rewrite products_of_lt by auto.
  - now rewrite products_of_gt by auto.
Qed.

End DisplayAndLookup.

(** X14.  On an ordered index, [displayCategories] prints the category
    names in strictly ascending order, and those names are exactly the ones
    [findCategory] finds; each category line is followed by one product
    line per product of the list that [findCategory] returns for that name,
    front to back, showing the product's ID, name and quantity; the
    products in display order are those lists one after the other. *)
Theorem displayCategories_by_lookup (t : CategoryNode) :
  BST t ->
  displayCategories t
  = flat_map
      (fun c =>
         LnCategory c
         :: map (fun p => LnProduct (productId p) (name p) (quantity p))
                (products_of t c))
      (inorder t)
  /\ StronglySorted str_lt (inorder t)
  /\ (forall c, In c (inorder t) <-> findCategory t c <> Null)
  /\ all_products t = flat_map (products_of t) (inorder t).
Proof.
  intros B. split; [|split; [|split]].
  - induction t as [|l IHl c ps r IHr]; [reflexivity|].
    pose proof B as (_ & _ & Bl & Br).
    rewrite (by_lookup_node
               (fun x ps =>
                  LnCategory x
                  :: map (fun p => LnProduct (productId p) (name p)
                                             (quantity p)) ps))
      by exact B.
    simpl. unfold displayProducts. now rewrite (IHl Bl), (IHr Br).
  - now apply BST_sorted.
  - intros c. symmetry. now apply find_in.
  - induction t as [|l IHl c ps r IHr]; [reflexivity|].
    pose proof B as (_ & _ & Bl & Br).
    rewrite (by_lookup_node (fun _ ps => ps)) by exact B.
    simpl. now rewrite (IHl Bl), (IHr Br).
Qed.

Lemma displayCategories_by_lookup_witness :
  let root := menu_add_product (insert_all ["Tools"; "Food"])
                "Tools" 1 "Hammer" 10 in
  BST root
  /\ displayCategories root
     = [LnCategory "Food"; LnCategory "Tools"; LnProduct 1 "Hammer" 10]
  /\ displayCategories root
     = flat_map
         (fun c =>
            LnCategory c
            :: map (fun p => LnProduct (productId p) (name p) (quantity p))
                   (products_of root c))
         (inorder root)
  /\ StronglySorted str_lt (inorder root)
  /\ (forall c, In c (inorder root) <-> findCategory root c <> Null)
  /\ all_products root = flat_map (products_of root) (inorder root).
Proof.
  intros root.
  assert (B : BST root) by (cbv; repeat split; reflexivity).
  split; [exact B|]. split; [reflexivity|].
  exact (displayCategories_by_lookup root B).
Defined.

(** X15.  [printProductsReport] returns on every list: its two loops end
    without ever reading through a null pointer, and it prints the header
    and one row per product, in the order of the list.  From the menu
    (choice 8) the call fails only while the index is empty, when the list
    is read through the null [root]. *)
Theorem printProductsReport_returns (head : ProductPtr)
  (root : CategoryNode) :
  printProductsReport head
  = Some (LnReportHeader ::
          map (fun p => LnReportRow (productId p) (name p) (quantity p)
                                    (category p)) head)
  /\ (menu_products_list root = None <-> root = Null).
Proof.
  split.
  - unfold printProductsReport. now rewrite sort_outer_returns.
  - destruct root as [|l c ps r]; simpl; [tauto|].
    unfold printProductsReport. rewrite sort_outer_returns.
    split; discriminate.
Qed.

Section AnalysisReport.

Lemma analysis_extremes_nonnull (head : ProductPtr) :
  head <> [] ->
  first_max head (maxStockProduct (analyzeProducts head))
  /\ first_min head (minStockProduct (analyzeProducts head)).
Proof.
  intros Hne.
  destruct (analyze_first_pass head 0 0 [] []) as [[[count total] maxS] minS]
    eqn:E.
  rewrite (analyzeProducts_fields head _ _ _ _ E). simpl.
  destruct (first_pass_extremes head [] 0 0 [] [] _ _ _ _
              (or_introl (conj eq_refl eq_refl))
              (or_introl (conj eq_refl eq_refl)) E) as [Hmax Hmin].
  simpl in Hmax, Hmin. split.
  - destruct Hmax as [[H _]|H]; [contradiction|now apply max_upto_first].
  - destruct Hmin as [[H _]|H]; [contradiction|now apply min_upto_first].
Qed.

End AnalysisReport.

(** X16.  [printAnalysisReport] reads through a null maximum pointer
    exactly when the list is empty.  On every other list it returns, and
    its maximum and minimum lines show a product of the list whose
    quantity no other product exceeds, respectively undercuts.  From the
    menu (choice 7) the call therefore fails exactly when the index is
    empty or the root category has no product. *)
Theorem printAnalysisReport_fails_iff_empty (head : ProductPtr)
  (root : CategoryNode) :
  (printAnalysisReport head = None <-> head = [])
  /\ (head <> [] ->
      exists mx mn tail,
        printAnalysisReport head
        = Some (RpTotal (totalQuantity (analyzeProducts head))
                :: RpAverage (averageQuantity (analyzeProducts head))
                :: RpMax (productId mx) (quantity mx)
                :: RpMin (productId mn) (quantity mn) :: tail)
        /\ In mx head /\ In mn head
        /\ Forall (fun x => quantity mn <= quantity x <= quantity mx) head)
  /\ (menu_analyze root = None <-> root_products root = []).
Proof.
  assert (Shape : forall h, h <> [] ->
            exists mx mn tail,
              printAnalysisReport h
              = Some (RpTotal (totalQuantity (analyzeProducts h))
                      :: RpAverage (averageQuantity (analyzeProducts h))
                      :: RpMax (productId mx) (quantity mx)
                      :: RpMin (productId mn) (quantity mn) :: tail)
              /\ In mx h /\ In mn h
              /\ Forall (fun x => quantity mn <= quantity x <= quantity mx) h).
  { intros h Hne.
    destruct (analysis_extremes_nonnull h Hne)
      as [(pre & mx & rest & Eh & Emax & Fpre & Frest)
          (pre' & mn & rest' & Eh' & Emin & Fpre' & Frest')].
    unfold printAnalysisReport. rewrite Emax, Emin.
    exists mx, mn. eexists. split; [reflexivity|].
    split; [rewrite Eh; apply in_or_app; right; now left|].
    split; [rewrite Eh'; apply in_or_app; right; now left|].
    apply Forall_forall. intros x Hx. split.
    - rewrite Eh' in Hx. apply in_app_or in Hx.
      rewrite Forall_forall in Fpre', Frest'.
      destruct Hx as [Hx|[<-|Hx]]; [apply Fpre' in Hx|..|apply Frest' in Hx];
        simpl in *; lia.
    - rewrite Eh in Hx. apply in_app_or in Hx.
      rewrite Forall_forall in Fpre, Frest.
      destruct Hx as [Hx|[<-|Hx]]; [apply Fpre in Hx|..|apply Frest in Hx];
        simpl in *; lia. }
  assert (Iff : forall h, printAnalysisReport h = None <-> h = []).
  { intros h. split.
    - intros H. destruct h as [|p h]; [reflexivity|].
      destruct (Shape (p :: h)) as (mx & mn & tail & E & _); [discriminate|].
      rewrite E in H. discriminate H.
    - intros ->. reflexivity. }
  split; [apply Iff|]. split; [apply Shape|].
  destruct root as [|l c ps r]; simpl; [tauto|apply Iff].
Qed.

(* ===================================================================== *)
(** * Further properties of the stock analysis *)
(* ===================================================================== *)

Section Classification.

Lemma filter_nil_iff {A : Type} (f : A -> bool) (l : list A) :
  filter f l = [] <-> (forall x, In x l -> f x = false).
Proof.
  induction l as [|a l IH]; simpl.
  - split; [intros _ x []|auto].
  - destruct (f a) eqn:E.
    + split; [discriminate|]. intros H.
      rewrite (H a (or_introl eq_refl)) in E. discriminate E.
    + rewrite IH. split.
      * intros H x [<-|Hx]; auto.
      * intros H x Hx. apply H. now right.
Qed.

Lemma rev_nil_iff {A : Type} (l : list A) : rev l = [] <-> l = [].
Proof.
  split; [|intros ->; reflexivity].
  intros H. apply (f_equal (@rev A)) in H. now rewrite rev_involutive in H.
Qed.

Lemma low_high_lengths (avg : double) (l : list Product) :
  (List.length (filter (is_low avg) l)
   + List.length (filter (is_high avg) l) <= List.length l)%nat.
Proof.
  induction l as [|p l IH]; simpl; [lia|].
  destruct (is_low avg p) eqn:L.
  - rewrite (double_lt_asym _ _ L : is_high avg p = false). simpl. lia.
  - destruct (is_high avg p); simpl; lia.
Qed.

(** The average that [analyzeProducts] returns, when no [int] overflows. *)
Lemma analysis_average (head : ProductPtr) :
  head <> [] ->
  CInt.in_range (sum_quantities head) ->
  Z.of_nat (List.length head) <= CInt.max_int ->
  averageQuantity (analyzeProducts head) = DFin (exact_average head).
Proof.
  intros Hne Hsum Hlen.
  destruct (analyze_first_pass head 0 0 [] []) as [[[count total] maxS] minS]
    eqn:E.
  rewrite (analyzeProducts_fields head _ _ _ _ E). simpl.
  destruct (first_pass_sums _ _ _ _ _ _ _ _ _ E) as (Ec & Et & Rc & Rt).
  assert (R0 : CInt.in_range 0)
    by (unfold CInt.in_range, CInt.min_int, CInt.max_int; lia).
  assert (Hcount : count = Z.of_nat (List.length head)).
  { rewrite <- (wrap_in_range count (Rc R0)), Ec. apply wrap_in_range.
    unfold CInt.in_range, CInt.min_int. simpl. lia. }
  assert (Htotal : total = sum_quantities head).
  { rewrite <- (wrap_in_range total (Rt R0)), Et. now apply wrap_in_range. }
  unfold double_div, exact_average. subst count total.
  destruct head as [|p head]; [contradiction|].
  replace (Z.of_nat (List.length (p :: head)) =? 0) with false;
    [reflexivity|].
  symmetry. apply Z.eqb_neq. rewrite length_cons. lia.
Qed.

(** Quantities that are all at least (at most) the mean are all equal to
    it; [n] and [c] stand for the number of products and their sum. *)
Lemma sum_quantities_cons (p : Product) (l : list Product) (n : Z) :
  sum_quantities (p :: l) * n = quantity p * n + sum_quantities l * n
  /\ forall c, Z.of_nat (List.length (p :: l)) * c
               = c + Z.of_nat (List.length l) * c.
Proof.
  split; [unfold sum_quantities; simpl; lia|].
  intros c. rewrite length_cons, Nat2Z.inj_succ. lia.
Qed.

Lemma sum_lower_bound (n c : Z) (l : list Product) :
  Forall (fun p => c <= quantity p * n) l ->
  Z.of_nat (List.length l) * c <= sum_quantities l * n.
Proof.
  induction 1 as [|p l Hp _ IH]; [simpl; lia|].
  destruct (sum_quantities_cons p l n) as [-> ->]. lia.
Qed.

Lemma sum_upper_bound (n c : Z) (l : list Product) :
  Forall (fun p => quantity p * n <= c) l ->
  sum_quantities l * n <= Z.of_nat (List.length l) * c.
Proof.
  induction 1 as [|p l Hp _ IH]; [simpl; lia|].
  destruct (sum_quantities_cons p l n) as [-> ->]. lia.
Qed.

Lemma all_at_least_mean (n c : Z) (l : list Product) :
  Forall (fun p => c <= quantity p * n) l ->
  sum_quantities l * n = Z.of_nat (List.length l) * c ->
  Forall (fun p => quantity p * n = c) l.
Proof.
  induction 1 as [|p l Hp Hl IH]; intros E; constructor;
    pose proof (sum_lower_bound n c l Hl);
    destruct (sum_quantities_cons p l n) as [E1 E2];
    rewrite E1, E2 in E; [|apply IH]; lia.
Qed.

Lemma all_at_most_mean (n c : Z) (l : list Product) :
  Forall (fun p => quantity p * n <= c) l ->
  sum_quantities l * n = Z.of_nat (List.length l) * c ->
  Forall (fun p => quantity p * n = c) l.
Proof.
  induction 1 as [|p l Hp Hl IH]; intros E; constructor;
    pose proof (sum_upper_bound n c l Hl);
    destruct (sum_quantities_cons p l n) as [E1 E2];
    rewrite E1, E2 in E; [|apply IH]; lia.
Qed.

End Classification.

(** X17.  The classification of [analyzeProducts] never puts a product in
    both result lists, takes every entry of the two lists from the analysed
    list, and the two lists together are never longer than the analysed
    list.  This holds for every list and whatever the average is, the NaN
    of the empty list included. *)
Theorem analyzeProducts_classes_disjoint (head : ProductPtr) :
  (forall p, In p (lowStockProducts (analyzeProducts head)) ->
             ~ In p (highStockProducts (analyzeProducts head)))
  /\ (forall p, In p (lowStockProducts (analyzeProducts head))
                \/ In p (highStockProducts (analyzeProducts head)) ->
                In p head)
  /\ (List.length (lowStockProducts (analyzeProducts head))
      + List.length (highStockProducts (analyzeProducts head))
      <= List.length head)%nat.
Proof.
  destruct (analyze_first_pass head 0 0 [] []) as [[[count total] maxS] minS]
    eqn:E.
  rewrite (analyzeProducts_fields head _ _ _ _ E). simpl.
  set (avg := double_div total count).
  split; [|split].
  - intros p Hl Hh. rewrite <- in_rev, filter_In in Hl, Hh.
    destruct Hl as [_ Hl], Hh as [_ Hh].
    rewrite (double_lt_asym _ _ Hl : is_high avg p = false) in Hh.
    discriminate Hh.
  - intros p [H|H]; rewrite <- in_rev, filter_In in H; tauto.
  - rewrite !length_rev. apply low_high_lengths.
Qed.

(** X18.  When no [int] overflows, the low-stock list is empty exactly when
    the high-stock list is empty, and that happens exactly when all the
    products have the same quantity (number of products times quantity
    equals the total for each of them). *)
Theorem analyzeProducts_low_empty_iff_high_empty (head : ProductPtr) :
  head <> [] ->
  CInt.in_range (sum_quantities head) ->
  Z.of_nat (List.length head) <= CInt.max_int ->
  (lowStockProducts (analyzeProducts head) = []
   <-> highStockProducts (analyzeProducts head) = [])
  /\ (lowStockProducts (analyzeProducts head) = []
      <-> Forall (fun p => quantity p * Z.of_nat (List.length head)
                           = sum_quantities head) head).
Proof.
  intros Hne Hsum Hlen.
  pose proof (analysis_average head Hne Hsum Hlen) as Havg.
  destruct (analyze_first_pass head 0 0 [] []) as [[[count total] maxS] minS]
    eqn:E.
  rewrite (analyzeProducts_fields head _ _ _ _ E) in *. simpl in *.
  rewrite Havg. clear E Havg.
  set (n := Z.of_nat (List.length head)). set (s := sum_quantities head).
  assert (Low : rev (filter (is_low (DFin (exact_average head))) head) = []
                <-> Forall (fun p => s <= quantity p * n) head).
  { rewrite rev_nil_iff, filter_nil_iff, Forall_forall.
    split; intros H p Hp; specialize (H p Hp);
      pose proof (proj1 (below_average_iff head (quantity p) Hne)) as B;
      fold n s in B; unfold is_low, double_of_int in *.
    - destruct (Z_lt_le_dec (quantity p * n) s) as [L|L]; [|exact L].
      apply B, double_lt_fin in L. congruence.
    - destruct (double_lt _ _) eqn:D; [|reflexivity].
      apply double_lt_fin, B in D. lia. }
  assert (High : rev (filter (is_high (DFin (exact_average head))) head) = []
                 <-> Forall (fun p => quantity p * n <= s) head).
  { rewrite rev_nil_iff, filter_nil_iff, Forall_forall.
    split; intros H p Hp; specialize (H p Hp);
      pose proof (proj2 (below_average_iff head (quantity p) Hne)) as B;
      fold n s in B; unfold is_high, double_of_int in *.
    - destruct (Z_lt_le_dec s (quantity p * n)) as [L|L]; [|exact L].
      apply B, double_lt_fin in L. congruence.
    - destruct (double_lt _ _) eqn:D; [|reflexivity].
      apply double_lt_fin, B in D. lia. }
  assert (Mean : s * n = n * s) by lia.
  assert (Eq_ge : Forall (fun p => quantity p * n = s) head ->
                  Forall (fun p => s <= quantity p * n) head)
    by (intros H; eapply Forall_impl; [|exact H]; simpl; intros; lia).
  assert (Eq_le : Forall (fun p => quantity p * n = s) head ->
                  Forall (fun p => quantity p * n <= s) head)
    by (intros H; eapply Forall_impl; [|exact H]; simpl; intros; lia).
  rewrite Low, High. split; split; intros H.
  - apply Eq_le. now apply all_at_least_mean.
  - apply Eq_ge. now apply all_at_most_mean.
  - now apply all_at_least_mean.
  - now apply Eq_ge.
Qed.

Lemma analyzeProducts_low_empty_iff_high_empty_witness :
  let head := insertProduct (insertProduct [] 1 "Bolt" 8) 2 "Nut" 8 in
  (head <> [] /\ CInt.in_range (sum_quantities head)
   /\ Z.of_nat (List.length head) <= CInt.max_int)
  /\ (lowStockProducts (analyzeProducts head) = []
      <-> highStockProducts (analyzeProducts head) = [])
  /\ (lowStockProducts (analyzeProducts head) = []
      <-> Forall (fun p => quantity p * Z.of_nat (List.length head)
                           = sum_quantities head) head).
Proof.
  intros head.
  assert (H1 : head <> []) by discriminate.
  assert (H2 : CInt.in_range (sum_quantities head))
    by (unfold CInt.in_range, CInt.min_int, CInt.max_int; simpl; lia).
  assert (H3 : Z.of_nat (List.length head) <= CInt.max_int)
    by (unfold CInt.max_int; simpl; lia).
  split; [auto|].
  exact (analyzeProducts_low_empty_iff_high_empty head H1 H2 H3).
Defined.

(* ===================================================================== *)
(** * The properties of the index on a three-category example *)
(* ===================================================================== *)

(** X2 on the index B, A, C with the new name D. *)
Lemma insertCategory_keeps_order_witness :
  let t := insert_all ["B"; "A"; "C"] in
  BST t
  /\ BST (insertCategory t "D")
  /\ (forall x, In x (inorder (insertCategory t "D"))
                <-> x = "D" \/ In x (inorder t)).
Proof.
  intros t.
  assert (B : BST t) by (cbv; repeat split; reflexivity).
  split; [exact B|]. exact (insertCategory_keeps_order t "D" B).
Defined.

(** X3 on the same index, looking for C. *)
Lemma findCategory_complete_witness :
  let t := insert_all ["B"; "A"; "C"] in
  BST t
  /\ (In "C" (inorder t)
      <-> exists l ps r, findCategory t "C" = Node l "C" ps r).
Proof.
  intros t.
  assert (B : BST t) by (cbv; repeat split; reflexivity).
  split; [exact B|]. exact (findCategory_complete t "C" B).
Defined.

(** X4 on the index B (hammer), A, C (apple): B has two children and C is
    the name that takes its place. *)
Lemma deleteCategory_products_witness :
  let t := menu_add_product
             (menu_add_product (insert_all ["B"; "A"; "C"])
                "B" 1 "Hammer" 10)
             "C" 2 "Apple" 7 in
  (BST t /\ successor_of t "B" = Some "C" /\ successor_of t "A" = None)
  /\ (products_of (deleteCategory t "B") "C" = products_of t "B"
      /\ (forall x, x <> "B" -> x <> "C" ->
            products_of (deleteCategory t "B") x = products_of t x))
  /\ (forall x, x <> "A" ->
        products_of (deleteCategory t "A") x = products_of t x).
Proof.
  intros t.
  assert (B : BST t) by (cbv; repeat split; reflexivity).
  split; [split; [exact B|split; reflexivity]|]. split.
  - exact (proj2 (deleteCategory_products t "B" B) "C" eq_refl).
  - exact (proj1 (deleteCategory_products t "A" B) eq_refl).
Defined.

(** X5 on the same index: B is deleted and inserted again. *)
Lemma deleteCategory_then_insert_witness :
  let t := menu_add_product (insert_all ["B"; "A"; "C"])
             "B" 1 "Hammer" 10 in
  BST t
  /\ BST (insertCategory (deleteCategory t "B") "B")
  /\ In "B" (inorder (insertCategory (deleteCategory t "B") "B"))
  /\ products_of (insertCategory (deleteCategory t "B") "B") "B" = [].
Proof.
  intros t.
  assert (B : BST t) by (cbv; repeat split; reflexivity).
  split; [exact B|]. exact (deleteCategory_then_insert t "B" B).
Defined.

(** X19 on the index B, A, C, deleting B. *)
Lemma deleteCategory_names_witness :
  let t := insert_all ["B"; "A"; "C"] in
  BST t
  /\ BST (deleteCategory t "B")
  /\ findCategory (deleteCategory t "B") "B" = Null
  /\ (forall x, x <> "B" ->
        (findCategory (deleteCategory t "B") x <> Null
         <-> findCategory t x <> Null))
  /\ (~ In "B" (inorder t) -> deleteCategory t "B" = t).
Proof.
  intros t.
  assert (B : BST t) by (cbv; repeat split; reflexivity).
  split; [exact B|]. exact (deleteCategory_names t "B" B).
Defined.

(* ===================================================================== *)
(** * The result of the analysis on a non-empty list *)
(* ===================================================================== *)

Section AnalysisOfNonEmptyLists.





End AnalysisOfNonEmptyLists.



